(** * Infinibrowser client: request building and response normalisation

    A shallow embedding of [src/client.ts] (its most recent revision, the one
    with [FetchResponse] and [handleError]) and the properties of its
    specification.

    JavaScript objects used as maps are [gmap]s, objects whose property order
    is observed are association lists, exceptions are an explicit completion
    type, and the runtime (timers, abort controllers, the requests handed to
    [fetch]) is an explicit state threaded through the asynchronous methods.
    A [Headers] object is its header list as [get] and iteration observe it.
    What the platform decides (URL parsing, how a number prints, [JSON.parse]
    and [JSON.stringify], the validation done by [new Headers] and
    [new Request], the network) is a [Host]. *)

From Stdlib Require Import Ascii String.
From stdpp Require Import gmap strings list fin_maps pretty sorting.

Open Scope string_scope.

(** ** Values, exceptions, completions *)

(** JavaScript values, as data: what [JSON.parse] gives and what a payload
    is made of. The numbers in them are the integers (status codes and
    counts are); a [bigint] is a value [JSON.stringify] has no text for. *)
#[warnings="-register-all"]
Inductive value : Type :=
| VUndefined
| VNull
| VBool (b : bool)
| VNumber (n : Z)
| VBigInt (n : Z)
| VString (s : string)
| VArray (items : list value)
| VObject (props : list (string * value)).

(** What a [throw] can carry, by the classes [handleError] tells apart. The
    messages of the errors the platform raises are not modelled. *)
Inductive js_error : Type :=
| SyntaxError                      (* thrown by [JSON.parse] *)
| DOMException (name : string)     (* [error.name] *)
| TypeError                        (* thrown by the platform's constructors *)
| PlainError (message : string)    (* [new Error(message)] *)
| OtherThrown (v : value).         (* any other thrown value *)

(** The outcome of evaluating synchronous code. *)
Inductive completion (A : Type) : Type :=
| Normal (a : A)
| Throw (e : js_error).
Arguments Normal {A} a.
Arguments Throw {A} e.

Global Instance completion_ret : MRet completion := λ A a, Normal a.
Global Instance completion_bind : MBind completion := λ A B k c,
  match c with
  | Normal a => k a
  | Throw e => Throw e
  end.

(** ** URLs and query parameters *)

(** A parsed URL: [href] is the serialisation without the query, and
    [searchParams] the list behind [url.searchParams]. *)
Record URL : Type := mkURL {
  href : string;
  searchParams : list (string * string)
}.

(** A [number]: a double, by its sign, significand and binary exponent, or
    one of the special values. How it prints is the platform's business. *)
Inductive number : Type :=
| NaN
| Infinity (negative : bool)
| Finite (negative : bool) (significand : N) (exponent : Z).

(** The literal [0]. *)
Definition zero : number := Finite false 0 0.

(** [type Params = Record<string, string | number | boolean | null | undefined>];
    the list is the object's properties in the order they were created, each
    key once. *)
Inductive param : Type :=
| PString (s : string)
| PNumber (n : number)
| PBoolean (b : bool)
| PNull
| PUndefined.

Definition Params : Type := list (string * param).

(** The value of a run of decimal digits. *)
Fixpoint digits (s : string) (acc : N) : option N :=
  match s with
  | EmptyString => Some acc
  | String c s' =>
      let d := N_of_ascii c in
      if ((48 <=? d) && (d <=? 57))%N
      then digits s' (10 * acc + (d - 48))%N
      else None
  end.

(** The array index a property key is, when it is one: the canonical decimal
    form of an integer below 2^32 - 1. *)
Definition array_index (key : string) : option N :=
  match key with
  | EmptyString => None
  | _ =>
      n ← digits key 0;
      if bool_decide (pretty n = key) && (n <? 4294967295)%N
      then Some n
      else None
  end.

(** The order of two properties that carry their array index. *)
Definition index_le (a b : N * (string * param)) : Prop := (a.1 ≤ b.1)%N.

Global Instance index_le_dec : RelDecision index_le :=
  λ a b, decide (a.1 ≤ b.1)%N.

(** [Object.entries(params)]: the properties whose key is an array index
    first, in ascending order of the index, then the others in the order
    they were created. *)
Definition Object_entries (params : Params) : list (string * param) :=
  (snd <$> merge_sort index_le
             (omap (λ entry, i ← array_index entry.1; Some (i, entry)) params))
  ++ filter (λ entry, array_index entry.1 = None) params.

(** [value !== null && value !== undefined] *)
Definition not_nullish (v : param) : bool :=
  match v with
  | PNull | PUndefined => false
  | _ => true
  end.

(** [url.searchParams.append(key, value)] *)
Definition searchParams_append (key val : string) (url : URL) : URL :=
  mkURL (href url) (searchParams url ++ [(key, val)]).

(** ** Headers *)

Definition ascii_lowercase (c : ascii) : ascii :=
  let n := N_of_ascii c in
  if ((65 <=? n) && (n <=? 90))%N then ascii_of_N (n + 32) else c.

(** Byte-lowercasing of a header name. *)
Fixpoint lowercase (s : string) : string :=
  match s with
  | EmptyString => EmptyString
  | String c s' => String (ascii_lowercase c) (lowercase s')
  end.

(** HTTP whitespace: tab, line feed, carriage return and space. *)
Definition http_whitespace (c : ascii) : bool :=
  let n := N_of_ascii c in
  ((n =? 9) || (n =? 10) || (n =? 13) || (n =? 32))%N.

Fixpoint strip_leading (s : string) : string :=
  match s with
  | EmptyString => EmptyString
  | String c s' => if http_whitespace c then strip_leading s' else s
  end.

Fixpoint strip_trailing (s : string) : string :=
  match s with
  | EmptyString => EmptyString
  | String c s' =>
      match strip_trailing s' with
      | EmptyString =>
          if http_whitespace c then EmptyString else String c EmptyString
      | rest => String c rest
      end
  end.

(** Normalising a header value: the HTTP whitespace at its two ends goes. *)
Definition normalize (val : string) : string :=
  strip_trailing (strip_leading val).

(** A [Headers] object, by what [get], [has], [getSetCookie] and iteration
    observe of its header list: each name, in lower case, with its values in
    the order they were appended. A name that is present has a value. *)
Abbreviation Headers := (gmap string (list string)).

(** The combined value of a name. *)
Definition combined (values : list string) : string :=
  String.concat ", " values.

(** [headers.get(name)] *)
Definition Headers_get (name : string) (hs : Headers) : option string :=
  combined <$> hs !! lowercase name.

(** [headers.append(name, value)] on a valid pair: the normalised value
    comes after those the name has. *)
Definition Headers_append (name val : string) (hs : Headers) : Headers :=
  <[lowercase name :=
      (default [] (hs !! lowercase name) ++ [normalize val])%list]> hs.

(** [headers.set(name, value)] on a valid pair: the normalised value is the
    only one the name is left with. *)
Definition Headers_set (name val : string) (hs : Headers) : Headers :=
  <[lowercase name := [normalize val]]> hs.

(** The order of two names with their values: that of the names. *)
Definition name_le (a b : string * list string) : Prop :=
  String.leb a.1 b.1 = true.

Global Instance name_le_dec : RelDecision name_le :=
  λ a b, decide (String.leb a.1 b.1 = true).

(** The pairs iteration yields for one name: one with its combined value,
    except for [set-cookie], which comes once for each of its values. *)
Definition entry_pairs (entry : string * list string)
    : list (string * string) :=
  if String.eqb entry.1 "set-cookie"
  then (λ val, (entry.1, val)) <$> entry.2
  else [(entry.1, combined entry.2)].

(** What iterating over a [Headers] object yields, the header list sorted
    and combined: the pairs of its names, taken in ascending order. *)
Definition Headers_entries (hs : Headers) : list (string * string) :=
  merge_sort name_le (map_to_list hs) ≫= entry_pairs.

(** [headers.forEach((value, key) => ...)], the callback threading [acc]. *)
Definition Headers_forEach {B : Type} (hs : Headers)
    (callback : string → string → B → B) (acc : B) : B :=
  fold_left (λ acc '(key, val), callback val key acc) (Headers_entries hs) acc.

(** [HeadersInit]: a record or a sequence of pairs, by its entries (those of
    one name in order), or a [Headers] object, which is read through its
    iterator. *)
Inductive HeadersInit : Type :=
| InitEntries (entries : list (string * string))
| InitHeaders (hs : Headers).

(** ** Request options *)

(** An optional property of an object literal: missing, present with the
    value [undefined], or present with a value. A spread copies the last two. *)
Inductive optional (A : Type) : Type :=
| Absent
| Undefined
| Present (a : A).
Arguments Absent {A}.
Arguments Undefined {A}.
Arguments Present {A} a.

(** Reading the property. *)
Definition optional_get {A : Type} (o : optional A) : option A :=
  match o with
  | Present a => Some a
  | _ => None
  end.

(** [{ ...a, ...b }] on one optional property. *)
Definition optional_spread {A : Type} (a b : optional A) : optional A :=
  match b with
  | Absent => a
  | _ => b
  end.

(** The value of a property of [RequestInit] other than [headers]. *)
Inductive init_value : Type :=
| IUndefined
| IString (s : string)
| ISignal (controller : nat).

(** [RequestInit]: the [headers] property, and the other own properties
    ([method], [body], [signal], [mode], ...) by name. *)
Record RequestInit : Type := mkRequestInit {
  headers : optional HeadersInit;
  fields : gmap string init_value
}.

(** [{}] *)
Definition empty_init : RequestInit := mkRequestInit Absent ∅.

(** [{ ...a, ...b }] *)
Definition RequestInit_spread (a b : RequestInit) : RequestInit :=
  mkRequestInit (optional_spread (headers a) (headers b)) (fields b ∪ fields a).

(** [new Request(url, init)] keeps what it was given. *)
Record Request : Type := mkRequest {
  request_url : URL;
  request_init : RequestInit
}.

(** ** Responses and results *)

(** How an awaited promise settles while the call's timer is pending: it is
    fulfilled, it is rejected, or the timer fires first. *)
Inductive settled (A : Type) : Type :=
| Fulfilled (a : A)
| Rejected (e : js_error)
| TimedOut.
Arguments Fulfilled {A} a.
Arguments Rejected {A} e.
Arguments TimedOut {A}.

Record Response : Type := mkResponse {
  status : Z;
  statusText : string;
  text : settled string   (* [response.clone().text()] *)
}.

(** [response.ok] *)
Definition Response_ok (response : Response) : bool :=
  bool_decide (200 ≤ status response ≤ 299)%Z.

Inductive transport_code : Type := SYNTAX_ERROR | TIMEOUT | UNKNOWN_ERROR.

(** [FetchResponseError]: [{ ok: false, error_code, error }] *)
Record FetchResponseError : Type := mkFetchResponseError {
  transport_error_code : transport_code;
  error : js_error
}.

(** What [FetchResponse<T, E>] resolves to. *)
Inductive FetchResponse : Type :=
| Success (data : value) (response : Response)
    (* [{ ok: true, data, response }] *)
| NotOk (data : value) (response : Response)
    (* [{ ok: false, error_code: "NOT_OK", response, data }] *)
| Failed (e : FetchResponseError).

Definition ok (r : FetchResponse) : bool :=
  match r with
  | Success _ _ => true
  | _ => false
  end.

Definition error_code (r : FetchResponse) : option string :=
  match r with
  | Success _ _ => None
  | NotOk _ _ => Some "NOT_OK"
  | Failed e =>
      Some match transport_error_code e with
           | SYNTAX_ERROR => "SYNTAX_ERROR"
           | TIMEOUT => "TIMEOUT"
           | UNKNOWN_ERROR => "UNKNOWN_ERROR"
           end
  end.

Definition handleError (error : js_error) : FetchResponseError :=
  match error with
  | SyntaxError => mkFetchResponseError SYNTAX_ERROR error
  | DOMException name =>
      if String.eqb name "AbortError"
      then mkFetchResponseError TIMEOUT error
      else mkFetchResponseError UNKNOWN_ERROR error
  | _ => mkFetchResponseError UNKNOWN_ERROR error
  end.

(** ** The client *)

Record InfinibrowserConfig : Type := mkConfig {
  API_URL : string;
  timeout : Z;
  request : optional RequestInit
}.

(** An instance, by its [$config]. *)
Record Infinibrowser : Type := new_Infinibrowser {
  config : InfinibrowserConfig
}.

(** [{ ...a, ...b }] on configurations; [API_URL] and [timeout] are required
    properties. *)
Definition config_spread (a b : InfinibrowserConfig) : InfinibrowserConfig :=
  mkConfig (API_URL b) (timeout b) (optional_spread (request a) (request b)).

(** The instances live in a store; [$refined] allocates a new one. *)
Abbreviation store := (gmap nat Infinibrowser).

(** [this.$refined(config)]: the new instance and the store after the call;
    [None] when [this] is no instance. *)
Definition refined (this : nat) (cfg : InfinibrowserConfig) (σ : store)
    : option (nat * store) :=
  client ← σ !! this;
  let new := fresh (dom σ) in
  Some (new, <[new := new_Infinibrowser (config_spread (config client) cfg)]> σ).

(** ** The runtime *)

Inductive event : Type :=
| EvSetTimeout (timer controller : nat) (ms : Z)
| EvFetch (request : Request)
| EvTimerFired (timer : nat)
| EvClearTimeout (timer : nat).

(** [controllers]: how many [AbortController]s exist; [aborted]: those whose
    signal is aborted; [timers]: the pending timers, each with the controller
    its callback aborts; [trace]: what the calls did, in order. *)
Record runtime : Type := mkRuntime {
  controllers : nat;
  aborted : gset nat;
  timers : gmap nat nat;
  trace : list event
}.

(** An asynchronous computation: it runs on the runtime and completes. *)
Definition M (A : Type) : Type := runtime → completion A * runtime.

Global Instance M_ret : MRet M := λ A a σ, (Normal a, σ).
Global Instance M_bind : MBind M := λ A B k m σ,
  match m σ with
  | (Normal a, σ') => k a σ'
  | (Throw e, σ') => (Throw e, σ')
  end.

Definition lift {A : Type} (c : completion A) : M A := λ σ, (c, σ).

(** [try { body } catch (error) { handler }] *)
Definition try_catch {A : Type} (body : M A) (handler : js_error → M A) : M A :=
  λ σ, match body σ with
       | (Normal a, σ') => (Normal a, σ')
       | (Throw e, σ') => handler e σ'
       end.

(** [try { body } finally { cleanup }] *)
Definition try_finally {A : Type} (body : M A) (cleanup : M unit) : M A :=
  λ σ, let '(c, σ') := body σ in
       match cleanup σ' with
       | (Normal _, σ'') => (c, σ'')
       | (Throw e, σ'') => (Throw e, σ'')
       end.

(** [new AbortController()] *)
Definition AbortController_new : M nat := λ σ,
  (Normal (controllers σ),
   mkRuntime (S (controllers σ)) (aborted σ) (timers σ) (trace σ)).

(** [setTimeout(() => controller.abort(), ms)] *)
Definition setTimeout (controller : nat) (ms : Z) : M nat := λ σ,
  let timer := fresh (dom (timers σ)) in
  (Normal timer,
   mkRuntime (controllers σ) (aborted σ) (<[timer := controller]> (timers σ))
             (trace σ ++ [EvSetTimeout timer controller ms])).

(** [clearTimeout(timer)] *)
Definition clearTimeout (timer : nat) : M unit := λ σ,
  (Normal (),
   mkRuntime (controllers σ) (aborted σ) (delete timer (timers σ))
             (trace σ ++ [EvClearTimeout timer])).

(** The timer fires: its callback aborts the controller. *)
Definition fire (timer : nat) (σ : runtime) : runtime :=
  match timers σ !! timer with
  | Some controller =>
      mkRuntime (controllers σ) ({[controller]} ∪ aborted σ)
                (delete timer (timers σ)) (trace σ ++ [EvTimerFired timer])
  | None => σ
  end.

(** [await promise], suspended while [timer] is pending: when the timer
    fires first the promise rejects with the signal's reason, a
    [DOMException] named [AbortError]. *)
Definition await {A : Type} (timer : nat) (promise : settled A) : M A := λ σ,
  match promise with
  | Fulfilled a => (Normal a, σ)
  | Rejected e => (Throw e, σ)
  | TimedOut => (Throw (DOMException "AbortError"), fire timer σ)
  end.

(** ** The host *)

(** What the platform and the network decide. *)
Class Host : Type := {
  (** [new URL(s)]: [None] when it throws [TypeError]. *)
  URL_parse : string → option URL;
  (** [String(n)] on a number *)
  Number_toString : number → string;
  (** [JSON.parse(text)]: [None] when it throws [SyntaxError]. *)
  JSON_parse : string → option value;
  (** [JSON.stringify(v)] on an object: [None] when it throws [TypeError],
      as it does on a [bigint] inside [v]. *)
  JSON_stringify : value → option string;
  (** whether [new Headers] accepts the pair of a name and a normalised
      value (a token, a field value) *)
  header_valid : string → string → bool;
  (** the exception [new Request(url, init)] throws, when it throws *)
  Request_invalid : URL → RequestInit → option js_error;
  (** how the promise of [fetch(request)] settles *)
  network : Request → settled Response
}.

Section Client.
Context `{host : Host}.

Definition URL_new (s : string) : completion URL :=
  match URL_parse s with
  | Some url => Normal url
  | None => Throw TypeError
  end.

Definition parse (text : string) : completion value :=
  match JSON_parse text with
  | Some data => Normal data
  | None => Throw SyntaxError
  end.

Definition stringify (v : value) : completion string :=
  match JSON_stringify v with
  | Some text => Normal text
  | None => Throw TypeError
  end.

Definition Request_new (url : URL) (init : RequestInit) : completion Request :=
  match Request_invalid url init with
  | Some e => Throw e
  | None => Normal (mkRequest url init)
  end.

(** Filling a [Headers] object from the entries of its initialiser: each
    is appended, its value normalised and the pair then validated. *)
Fixpoint Headers_fill (entries : list (string * string)) (hs : Headers)
    : completion Headers :=
  match entries with
  | [] => Normal hs
  | (name, val) :: rest =>
      if header_valid name (normalize val)
      then Headers_fill rest (Headers_append name val hs)
      else Throw TypeError
  end.

(** [new Headers(init)] *)
Definition Headers_new (init : optional HeadersInit) : completion Headers :=
  match init with
  | Absent | Undefined => Normal ∅
  | Present (InitEntries entries) => Headers_fill entries ∅
  | Present (InitHeaders hs) => Headers_fill (Headers_entries hs) ∅
  end.

(** ** [buildUrl] *)

(** [String(value)] on a parameter value. *)
Definition String_ (v : param) : string :=
  match v with
  | PString s => s
  | PNumber n => Number_toString n
  | PBoolean true => "true"
  | PBoolean false => "false"
  | PNull => "null"
  | PUndefined => "undefined"
  end.

Definition buildUrl (API_URL path : string) (params : option Params)
    : completion URL :=
  url ← URL_new (API_URL +:+ path);
  match params with
  | Some params =>
      mret (fold_left
              (λ url '(key, value),
                 if not_nullish value
                 then searchParams_append key (String_ value) url
                 else url)
              (Object_entries params) url)
  | None => mret url
  end.

(** ** [mergeRequests] *)

(** The loop over [requests], on [mergedResult] and [mergedHeaders]. *)
Fixpoint mergeRequests_loop (requests : list (option RequestInit))
    (mergedResult : RequestInit) (mergedHeaders : Headers)
    : completion (RequestInit * Headers) :=
  match requests with
  | [] => mret (mergedResult, mergedHeaders)
  | None :: requests => mergeRequests_loop requests mergedResult mergedHeaders
  | Some request :: requests =>
      let mergedResult := RequestInit_spread mergedResult request in
      hs ← Headers_new (headers request);
      mergeRequests_loop requests mergedResult
        (Headers_forEach hs (λ value key, Headers_set key value) mergedHeaders)
  end.

Definition mergeRequests (requests : list (option RequestInit))
    : completion RequestInit :=
  '(mergedResult, mergedHeaders) ← mergeRequests_loop requests empty_init ∅;
  mret (mkRequestInit (Present (InitHeaders mergedHeaders))
                      (fields mergedResult)).

(** ** The timeout-guarded send and the endpoints *)

(** [fetch(request)]: the request goes out. *)
Definition fetch (request : Request) : M (settled Response) := λ σ,
  (Normal (network request),
   mkRuntime (controllers σ) (aborted σ) (timers σ)
             (trace σ ++ [EvFetch request])).

(** The [try] block of [#fetchWithTimeout], given the controller and the
    timer created before it. *)
Definition fetchWithTimeout_try (this : Infinibrowser) (url : URL)
    (init : RequestInit) (controller timer : nat) : M FetchResponse :=
  requestInit ← lift (mergeRequests
    [ optional_get (request (config this));
      Some init;
      Some (mkRequestInit
              (Present (InitEntries
                 [("Accept-Encoding", "gzip, deflate, identity")]))
              {["signal" := ISignal controller]}) ]);
  request ← lift (Request_new url requestInit);
  promise ← fetch request;
  response ← await timer promise;
  let ok := Response_ok response in
  if negb ok then
    text ← await timer (text response);
    data ← lift (parse text);
    mret (NotOk data response)
  else
    text ← await timer (text response);
    data ← lift (parse text);
    mret (Success data response).

(** [#fetchWithTimeout] *)
Definition fetchWithTimeout (this : Infinibrowser) (url : URL)
    (init : RequestInit) : M FetchResponse :=
  controller ← AbortController_new;
  timer ← setTimeout controller (timeout (config this));
  try_finally
    (try_catch
       (fetchWithTimeout_try this url init controller timer)
       (λ error, mret (Failed (handleError error))))
    (clearTimeout timer).

(** [#get] *)
Definition get (this : Infinibrowser) (path : string) (params : option Params)
    : M FetchResponse :=
  url ← lift (buildUrl (API_URL (config this)) path params);
  fetchWithTimeout this url
    (mkRequestInit (Present (InitEntries [("Accept", "application/json")]))
                   {["method" := IString "GET"]}).

(** [payload ?? {}] *)
Definition or_empty (payload : option value) : value :=
  match payload with
  | None | Some VUndefined | Some VNull => VObject []
  | Some payload => payload
  end.

(** [#post]: the URL is built, then the argument of [#fetchWithTimeout] is
    evaluated, the body with it, then the call is made. *)
Definition post (this : Infinibrowser) (path : string) (params : option Params)
    (payload : option value) : M FetchResponse :=
  url ← lift (buildUrl (API_URL (config this)) path params);
  body ← lift (stringify (or_empty payload));
  fetchWithTimeout this url
    (mkRequestInit
       (Present (InitEntries [("Content-Type", "application/json")]))
       {[ "method" := IString "POST"; "body" := IString body ]}).

Definition getItem (this : Infinibrowser) (id : string) : M FetchResponse :=
  get this "/item" (Some [("id", PString id)]).

(** [{ offset = 0 }: { offset?: number } = {}] *)
Definition getRecipes (this : Infinibrowser) (id : string)
    (offset : option number) : M FetchResponse :=
  get this "/recipes"
      (Some [("id", PString id); ("offset", PNumber (default zero offset))]).

Definition getUses (this : Infinibrowser) (id : string)
    (offset : option number) : M FetchResponse :=
  get this "/uses"
      (Some [("id", PString id); ("offset", PNumber (default zero offset))]).

Definition getLineage (this : Infinibrowser) (id : string) : M FetchResponse :=
  get this "/recipe" (Some [("id", PString id)]).

Definition getCustomLineage (this : Infinibrowser) (id : string)
    : M FetchResponse :=
  get this "/recipe/custom" (Some [("id", PString id)]).

Definition optimizeLineage (this : Infinibrowser) (id : string)
    : M FetchResponse :=
  post this "/optimize-lineage" (Some [("id", PString id)]) None.

(** Modelled from the spec: [ShareLineageType] is declared in [./types], which
    is not among the sources. A lineage is an ordered sequence of steps; each
    step is a 3-tuple whose third component is the result element, carrying
    an [id] and an [emoji]; the first two components are any values. *)
Record Element : Type := mkElement {
  id : string;
  emoji : string
}.

Definition Step : Type := value * value * Element.

Definition ShareLineageType : Type := list Step.

Definition Element_value (e : Element) : value :=
  VObject [("id", VString (id e)); ("emoji", VString (emoji e))].

Definition Step_value (step : Step) : value :=
  let '(a, b, result) := step in
  VArray [a; b; Element_value result].

Definition shareLineage (this : Infinibrowser) (steps : ShareLineageType)
    : M FetchResponse :=
  let path := "/analytics/share" in
  match last steps with
  | None => lift (Throw (PlainError "Lineage must not be empty"))
  | Some lastStep =>
      let resultElement := lastStep.2 in
      let payload :=
        VObject [ ("id", VString (id resultElement));
                  ("emoji", VString (emoji resultElement));
                  ("steps", VArray (Step_value <$> steps)) ] in
      post this path None (Some payload)
  end.

End Client.

(** ** Notions the statements use *)

Section Statements.
Context `{host : Host}.

(** The query entries a parameter mapping stands for: the parameters that
    are neither [null] nor [undefined], in order, each with the string form
    of its value. *)
Definition query_entries (params : Params) : list (string * string) :=
  (λ entry, (entry.1, String_ entry.2))
    <$> filter (λ entry, not_nullish entry.2 = true) params.

(** The query entry a parameter stands for, case by case: none for [null]
    and [undefined]; a string as it is; a boolean as [true] or [false]; a
    number as the platform prints it. *)
Definition query_entry (entry : string * param) : option (string * string) :=
  match entry.2 with
  | PNull | PUndefined => None
  | PString s => Some (entry.1, s)
  | PBoolean true => Some (entry.1, "true")
  | PBoolean false => Some (entry.1, "false")
  | PNumber n => Some (entry.1, Number_toString n)
  end.

(** The text of the payload a POST sends, when there is one: that of the
    payload given, or of the empty object when none is given or the one
    given is [undefined] or [null]; none when the platform has no text for
    it. *)
Definition serialised (payload : option value) : option string :=
  match payload with
  | None | Some VUndefined | Some VNull => JSON_stringify (VObject [])
  | Some payload => JSON_stringify payload
  end.

(** The headers of a request specification, as [new Headers] reads them. *)
Definition headers_view (request : RequestInit) : option Headers :=
  match Headers_new (headers request) with
  | Normal hs => Some hs
  | Throw _ => None
  end.

(** The value of one header of a request specification. *)
Definition header_of (name : string) (request : RequestInit) : option string :=
  hs ← headers_view request; Headers_get name hs.

(** The values of one header of a request specification, in the order they
    were given. *)
Definition header_values (name : string) (request : RequestInit)
    : option (list string) :=
  hs ← headers_view request; hs !! lowercase name.

(** What a merge carries over of a header that has these values: of
    [Set-Cookie] the last value, of any other header the values joined by a
    comma and a space, and in both cases without the whitespace the result
    has at its ends. *)
Definition carried (name : string) (values : list string) : string :=
  normalize (if String.eqb (lowercase name) "set-cookie"
             then default "" (last values)
             else String.concat ", " values).

(** What a merge carries over of one header of a request specification. *)
Definition carried_header (name : string) (request : RequestInit)
    : option string :=
  carried name <$> header_values name request.

(** What the last element of [l] on which [f] is defined gives. *)
Fixpoint last_defined {A B : Type} (f : A → option B) (l : list (option A))
    : option B :=
  match l with
  | [] => None
  | a :: l =>
      match last_defined f l with
      | Some b => Some b
      | None => a ≫= f
      end
  end.

(** What every [Headers] object is: its names are in lower case, and each
    has a value, normalised as are all its values. *)
Definition well_formed (hs : Headers) : Prop :=
  ∀ name values,
    hs !! name = Some values →
    lowercase name = name ∧ values ≠ []
    ∧ Forall (λ val, normalize val = val) values.

(** Each name has one value. *)
Definition single_valued (hs : Headers) : Prop :=
  ∀ name values, hs !! name = Some values → ∃ val, values = [val].

(** The request the [try] block builds for the controller [controller]. *)
Definition built_request (this : Infinibrowser) (url : URL)
    (init : RequestInit) (controller : nat) : completion Request :=
  requestInit ← mergeRequests
    [ optional_get (request (config this));
      Some init;
      Some (mkRequestInit
              (Present (InitEntries
                 [("Accept-Encoding", "gzip, deflate, identity")]))
              {["signal" := ISignal controller]}) ];
  Request_new url requestInit.

(** The timer a call started in [σ] creates. *)
Definition new_timer (σ : runtime) : nat := fresh (dom (timers σ)).

(** The runtime at the [try]: one more controller, its timer pending. *)
Definition at_try (this : Infinibrowser) (σ : runtime) : runtime :=
  mkRuntime (S (controllers σ)) (aborted σ)
            (<[new_timer σ := controllers σ]> (timers σ))
            (trace σ ++ [EvSetTimeout (new_timer σ) (controllers σ)
                                      (timeout (config this))]).

Definition logged (ev : event) (σ : runtime) : runtime :=
  mkRuntime (controllers σ) (aborted σ) (timers σ) (trace σ ++ [ev]).

Definition cleared (timer : nat) (σ : runtime) : runtime :=
  mkRuntime (controllers σ) (aborted σ) (delete timer (timers σ))
            (trace σ ++ [EvClearTimeout timer]).

Definition abort_error : js_error := DOMException "AbortError".

(** The outcome [out] of a call started in [σ] is a returned result, with
    the pending timers of [σ] and, as events, the setting of the call's timer,
    then [events] (requests and firings of that timer), then its clearing. *)
Definition returns_with_timer_cleared (this : Infinibrowser) (σ : runtime)
    (out : completion FetchResponse * runtime) : Prop :=
  ∃ r σ' events,
    out = (Normal r, σ') ∧
    (new_timer σ ∉ dom (timers σ)) ∧
    timers σ' = timers σ ∧
    trace σ' = (trace σ
                ++ [EvSetTimeout (new_timer σ) (controllers σ)
                                 (timeout (config this))]
                ++ events
                ++ [EvClearTimeout (new_timer σ)])%list ∧
    (∀ ev, ev ∈ events →
           (∃ request, ev = EvFetch request) ∨ ev = EvTimerFired (new_timer σ)).

End Statements.

(** ** The revision before [FetchResponse]

    The second revision of the file keeps [buildUrl], [mergeRequests] and
    [$refined] as they are and has a [#fetchWithTimeout] that throws where
    the last one returns a failure. *)
Module Previous.
Section Client.
Context `{host : Host}.

(** [new Error(`HTTP ${response.status} - ${response.statusText}`)] *)
Definition http_error (response : Response) : js_error :=
  PlainError ("HTTP " +:+ pretty (status response) +:+ " - "
              +:+ statusText response).

(** The [try] block. *)
Definition fetchWithTimeout_try (this : Infinibrowser) (url : URL)
    (init : RequestInit) (controller timer : nat) : M value :=
  requestInit ← lift (mergeRequests
    [ optional_get (request (config this));
      Some init;
      Some (mkRequestInit
              (Present (InitEntries
                 [("Accept-Encoding", "gzip, deflate, identity")]))
              {["signal" := ISignal controller]}) ]);
  request ← lift (Request_new url requestInit);
  promise ← fetch request;
  response ← await timer promise;
  if negb (Response_ok response) then
    lift (Throw (http_error response))
  else
    text ← await timer (text response);
    data ← lift (parse text);
    mret data.

(** [#fetchWithTimeout]: a [try] with a [finally] and no [catch]. *)
Definition fetchWithTimeout (this : Infinibrowser) (url : URL)
    (init : RequestInit) : M value :=
  controller ← AbortController_new;
  timer ← setTimeout controller (timeout (config this));
  try_finally
    (fetchWithTimeout_try this url init controller timer)
    (clearTimeout timer).

End Client.
End Previous.

(** ** Calls in a row *)

Section Callers.
Context `{host : Host}.

(** A caller awaiting [getItem] for one identifier after the other. *)
Fixpoint getItem_each (this : Infinibrowser) (ids : list string)
    : M (list FetchResponse) :=
  match ids with
  | [] => mret []
  | id :: ids =>
      r ← getItem this id;
      rs ← getItem_each this ids;
      mret (r :: rs)
  end.

(** The request options the [try] block forces on every call. *)
Definition forced_init (controller : nat) : RequestInit :=
  mkRequestInit
    (Present (InitEntries [("Accept-Encoding", "gzip, deflate, identity")]))
    {["signal" := ISignal controller]}.

(** The options of the GET and of the POST primitive. *)
Definition get_options : RequestInit :=
  mkRequestInit (Present (InitEntries [("Accept", "application/json")]))
                {["method" := IString "GET"]}.

Definition post_options (body : string) : RequestInit :=
  mkRequestInit
    (Present (InitEntries [("Content-Type", "application/json")]))
    {[ "method" := IString "POST"; "body" := IString body ]}.

End Callers.

(** ** The exported instance *)

(** The exported constant [API_URL]; the name is the configuration's field
    here. *)
Definition DEFAULT_API_URL : string := "https://infinibrowser.wiki/api".

Definition DEFAULT_OPTIONS : InfinibrowserConfig :=
  mkConfig DEFAULT_API_URL 1000 Absent.

Definition ib : Infinibrowser := new_Infinibrowser DEFAULT_OPTIONS.

(** ** A sample host

    A small platform and server on which the client runs to a value. It
    agrees with the real platform on the inputs used below: a string with no
    scheme is no URL, the bodies it parses are JSON texts, and a [GET] request
    takes no body. *)
Module Sample.

Definition dquote : string := String "034"%char EmptyString.

Definition quoted (s : string) : string := dquote +:+ s +:+ dquote.

(** The JSON text of a value whose strings need no escape and that holds
    no [bigint]. *)
Fixpoint json_text (v : value) : string :=
  match v with
  | VUndefined | VNull => "null"
  | VBool true => "true"
  | VBool false => "false"
  | VNumber n => pretty n
  | VBigInt n => pretty n +:+ "n"
  | VString s => quoted s
  | VArray items =>
      "[" +:+ String.concat ","
                ((fix each (l : list value) : list string :=
                    match l with
                    | [] => []
                    | x :: l' => json_text x :: each l'
                    end) items) +:+ "]"
  | VObject props =>
      "{" +:+ String.concat ","
                ((fix each (l : list (string * value)) : list string :=
                    match l with
                    | [] => []
                    | (_, VUndefined) :: l' => each l'
                    | (k, x) :: l' => (quoted k +:+ ":" +:+ json_text x) :: each l'
                    end) props) +:+ "}"
  end.

(** Whether a [bigint] occurs in the value. *)
Fixpoint has_bigint (v : value) : bool :=
  match v with
  | VBigInt _ => true
  | VArray items =>
      (fix any (l : list value) : bool :=
         match l with
         | [] => false
         | x :: l' => has_bigint x || any l'
         end) items
  | VObject props =>
      (fix any (l : list (string * value)) : bool :=
         match l with
         | [] => false
         | (_, x) :: l' => has_bigint x || any l'
         end) props
  | _ => false
  end.

(** [JSON.stringify] throws on a value that holds a [bigint]. *)
Definition sample_stringify (v : value) : option string :=
  if has_bigint v then None else Some (json_text v).

Definition unknown_element : value :=
  VObject [("code", VNumber 404); ("message", VString "Unknown element")].

Definition water : value :=
  VObject [("id", VString "Water"); ("text", VString "Water")].

Definition shared : value := VObject [("id", VString "abc123")].

(** The texts the sample [JSON.parse] knows; anything else here is markup. *)
Definition parse_table : list (string * value) :=
  (λ v, (json_text v, v)) <$> [unknown_element; water; shared].

Definition sample_parse (s : string) : option value :=
  match list_find (λ entry, entry.1 = s) parse_table with
  | Some (_, (_, v)) => Some v
  | None => None
  end.

(** Right on the integers below 2^53 and on the special values. *)
Definition sample_Number_toString (n : number) : string :=
  match n with
  | NaN => "NaN"
  | Infinity false => "Infinity"
  | Infinity true => "-Infinity"
  | Finite negative m e =>
      let magnitude :=
        if bool_decide (0 ≤ e)%Z then (m * 2 ^ Z.to_N e)%N
        else (m `div` 2 ^ Z.to_N (- e))%N in
      if bool_decide (magnitude = 0%N) then "0"
      else (if negative then "-" else "") +:+ pretty magnitude
  end.

Definition sample_URL_parse (s : string) : option URL :=
  if String.prefix "https://" s || String.prefix "http://" s
  then Some (mkURL s [])
  else None.

(** A header name is a non-empty run of visible characters without a colon;
    a value has no line break. *)
Definition sample_header_valid (name val : string) : bool :=
  negb (String.eqb name "")
  && forallb (λ c, let n := N_of_ascii c in
                   (32 <? n)%N && (n <? 127)%N && negb (n =? 58)%N)
             (list_ascii_of_string name)
  && forallb (λ c, let n := N_of_ascii c in
                   negb (n =? 10)%N && negb (n =? 13)%N && negb (n =? 0)%N)
             (list_ascii_of_string val).

Definition sample_Request_invalid (url : URL) (init : RequestInit)
    : option js_error :=
  match fields init !! "method", fields init !! "body" with
  | (None | Some IUndefined | Some (IString "GET") | Some (IString "HEAD")),
    Some (IString _) => Some TypeError
  | _, _ => None
  end.

Definition api (path : string) : string := DEFAULT_API_URL +:+ path.

Definition sample_network (request : Request) : settled Response :=
  let url := request_url request in
  if bool_decide (href url = api "/item") then
    if bool_decide (searchParams url = [("id", "Water")])
    then Fulfilled (mkResponse 200 "OK" (Fulfilled (json_text water)))
    else Fulfilled (mkResponse 404 "Not Found"
                      (Fulfilled (json_text unknown_element)))
  else if bool_decide (href url = api "/recipes") then
    Fulfilled (mkResponse 502 "Bad Gateway"
                 (Fulfilled "<html>Bad Gateway</html>"))
  else if bool_decide (href url = api "/uses") then TimedOut
  else if bool_decide (href url = api "/recipe") then
    Fulfilled (mkResponse 200 "OK" TimedOut)
  else if bool_decide (href url = api "/recipe/custom") then Rejected TypeError
  else if bool_decide (href url = api "/analytics/share") then
    Fulfilled (mkResponse 200 "OK" (Fulfilled (json_text shared)))
  else Fulfilled (mkResponse 200 "OK" (Fulfilled "")).

Definition sample_host : Host := {|
  URL_parse := sample_URL_parse;
  Number_toString := sample_Number_toString;
  JSON_parse := sample_parse;
  JSON_stringify := sample_stringify;
  header_valid := sample_header_valid;
  Request_invalid := sample_Request_invalid;
  network := sample_network
|}.

(** The runtime before anything ran. *)
Definition idle : runtime := mkRuntime 0 ∅ ∅ [].

End Sample.

(** What the calls below are made of. *)
Definition item_url (id : string) : URL := mkURL (Sample.api "/item") [("id", id)].

Definition get_init : RequestInit :=
  mkRequestInit (Present (InitEntries [("Accept", "application/json")]))
                {["method" := IString "GET"]}.

Definition not_found : Response :=
  mkResponse 404 "Not Found" (Fulfilled (Sample.json_text Sample.unknown_element)).

Definition bad_gateway : Response :=
  mkResponse 502 "Bad Gateway" (Fulfilled "<html>Bad Gateway</html>").

Definition recipes_url (id : string) : URL :=
  mkURL (Sample.api "/recipes") [("id", id); ("offset", "0")].

Definition uses_url (id : string) : URL :=
  mkURL (Sample.api "/uses") [("id", id); ("offset", "0")].

Definition custom_url (id : string) : URL :=
  mkURL (Sample.api "/recipe/custom") [("id", id)].

Definition timed_out : FetchResponse :=
  Failed (mkFetchResponseError TIMEOUT (DOMException "AbortError")).

Definition syntax_error : FetchResponse :=
  Failed (mkFetchResponseError SYNTAX_ERROR SyntaxError).

(** Three request specifications, the second one missing. The first gives
    [X-Trace] with a space on each side of its value. *)
Definition first_request : RequestInit :=
  mkRequestInit
    (Present (InitEntries [("Accept", "text/html"); ("X-Trace", " 1 ")]))
    {["method" := IString "GET"; "mode" := IString "cors"]}.

(** A specification that gives [Set-Cookie] and [Via] twice. *)
Definition cookies_request : RequestInit :=
  mkRequestInit
    (Present (InitEntries [ ("Set-Cookie", "a=1"); ("Via", "1.1 x");
                            ("Set-Cookie", "b=2"); ("Via", "1.1 y") ]))
    ∅.

Definition last_request : RequestInit :=
  mkRequestInit (Present (InitEntries [("accept", "application/json")]))
                {["method" := IString "POST"]}.

Definition three_requests : list (option RequestInit) :=
  [Some first_request; None; Some last_request].

(** A lineage of one step. *)
Definition steam : ShareLineageType :=
  [(VString "Water", VString "Fire", mkElement "Steam" "~")].


(** A client whose base URL is no URL. *)
Definition malformed : Infinibrowser :=
  new_Infinibrowser (mkConfig "not a url" 1000 Absent).

(** Two configurations, each with one header in its [request] option. *)
Definition traced_request : RequestInit :=
  mkRequestInit (Present (InitEntries [("X-A", "1")])) ∅.

Definition tagged_request : RequestInit :=
  mkRequestInit (Present (InitEntries [("X-B", "2")])) ∅.

Definition traced : InfinibrowserConfig :=
  mkConfig DEFAULT_API_URL 1000 (Present traced_request).

Definition tagged : InfinibrowserConfig :=
  mkConfig DEFAULT_API_URL 250 (Present tagged_request).

(** The value a key-by-key merge of the headers of two [request] options
    gives a header: the later one's, else the earlier one's. *)
Definition merged_header `{host : Host} (name : string)
    (earlier later : RequestInit) : option string :=
  match header_of name later with
  | Some x => Some x
  | None => header_of name earlier
  end.

(** A specification [new Headers] rejects: a space in a header name. *)
Definition bad_request : RequestInit :=
  mkRequestInit (Present (InitEntries [("Bad Name", "1")])) ∅.

(** A client whose [request] option tries to set what the calls set. *)
Definition overriding_request : RequestInit :=
  mkRequestInit
    (Present (InitEntries [ ("Accept-Encoding", "br");
                            ("Accept", "text/html");
                            ("Authorization", "Bearer t");
                            ("Set-Cookie", "a=1");
                            ("Set-Cookie", "b=2") ]))
    {[ "signal" := ISignal 99; "method" := IString "PUT";
       "mode" := IString "cors" ]}.

Definition overriding : Infinibrowser :=
  new_Infinibrowser (mkConfig DEFAULT_API_URL 1000 (Present overriding_request)).

Definition found : Response :=
  mkResponse 200 "OK" (Fulfilled (Sample.json_text Sample.water)).

Definition optimize_url (id : string) : URL :=
  mkURL (Sample.api "/optimize-lineage") [("id", id)].

(** A mapping whose second property has an array index as key. *)
Definition indexed_params : Params :=
  [("b", PString "x"); ("1", PString "y")].

(** A mapping with a value of every kind and no array index among its keys. *)
Definition recipes_params : Params :=
  [ ("id", PString "Water"); ("after", PNull);
    ("offset", PNumber (Finite false 5 2));
    ("exact", PBoolean true); ("before", PUndefined) ].

(** * Properties *)

Section Properties.
Context `{host : Host}.

(** ** URL building *)

Lemma buildUrl_loop (params : Params) (url : URL) :
  fold_left
    (λ url '(key, value),
       if not_nullish value
       then searchParams_append key (String_ value) url
       else url)
    params url
  = mkURL (href url) (searchParams url ++ query_entries params).
Proof.
  revert url. induction params as [|[key v] params IH]; intros url.
  - destruct url. unfold query_entries. cbn. by rewrite app_nil_r.
  - cbn [fold_left]. rewrite IH. unfold query_entries.
    destruct (not_nullish v) eqn:Hv.
    + rewrite (filter_cons _ (key, v)), decide_True by done.
      cbn. by rewrite <- app_assoc.
    + rewrite (filter_cons _ (key, v)), decide_False by (cbn; congruence).
      done.
Qed.

(** The entries the loop appends are those of the case-by-case reading. *)
Lemma query_entries_omap (params : Params) :
  query_entries params = omap query_entry params.
Proof.
  unfold query_entries. induction params as [|[key v] params IH]; [done|].
  rewrite (filter_cons _ (key, v)). cbn [omap list_omap]. rewrite <- IH.
  destruct v as [s|n|[]| |]; cbn;
    (rewrite decide_True by done) || (rewrite decide_False by done); done.
Qed.

Lemma Object_entries_indexed (params : Params) :
  snd <$> omap (λ entry, i ← array_index entry.1; Some (i, entry)) params
  = filter (λ entry, is_Some (array_index entry.1)) params.
Proof.
  induction params as [|entry params IH]; [done|].
  rewrite (filter_cons _ entry). cbn [omap list_omap].
  destruct (array_index entry.1) as [i|] eqn:Hi.
  - rewrite decide_True by (by eexists). cbn. f_equal. exact IH.
  - rewrite decide_False by (by intros [? ?]). exact IH.
Qed.

Lemma Object_entries_carry_index (params : Params) :
  Forall (λ x : N * (string * param), array_index x.2.1 = Some x.1)
         (omap (λ entry, i ← array_index entry.1; Some (i, entry)) params).
Proof.
  induction params as [|entry params IH]; [constructor|].
  cbn [omap list_omap].
  destruct (array_index entry.1) as [i|] eqn:Hi; cbn; [|exact IH].
  by constructor.
Qed.

Global Instance index_le_total : Total index_le.
Proof. intros a b. unfold index_le. lia. Qed.

Lemma Sorted_by_index (l : list (N * (string * param))) :
  Sorted index_le l →
  Forall (λ x : N * (string * param), array_index x.2.1 = Some x.1) l →
  Sorted (λ a b : string * param,
            ∀ i j, array_index a.1 = Some i → array_index b.1 = Some j →
                   (i ≤ j)%N)
         (snd <$> l).
Proof.
  induction 1 as [|x l Hsorted IH Hhd]; intros Hall; [constructor|].
  apply Forall_cons in Hall as [Hx Hall]. cbn. constructor; [by apply IH|].
  destruct Hhd as [|y l Hxy]; [constructor|].
  apply Forall_cons in Hall as [Hy _]. cbn. constructor.
  intros i j Hi Hj. rewrite Hx in Hi. rewrite Hy in Hj.
  injection Hi as <-. injection Hj as <-. exact Hxy.
Qed.

(** A mapping none of whose keys is an array index is enumerated in the
    order its properties were created. *)
Lemma Object_entries_plain (params : Params) :
  Forall (λ entry, array_index entry.1 = None) params →
  Object_entries params = params.
Proof.
  intros Hplain. unfold Object_entries.
  assert (omap (λ entry : string * param,
                  i ← array_index entry.1; Some (i, entry)) params = [])
    as ->.
  { induction Hplain as [|entry params Hentry _ IH]; [done|].
    cbn [omap list_omap]. by rewrite Hentry. }
  cbn [fmap list_fmap app]. unfold merge_sort. cbn [merge_sort_aux merge_stack fmap list_fmap app].
  induction Hplain as [|entry params Hentry _ IH]; [done|].
  rewrite (filter_cons _ entry), decide_True by done. f_equal. exact IH.
Qed.

(** C3, as the code has it. [buildUrl] parses the base URL followed by the
    path and, when that is a URL, returns it with its query extended, after
    the entries it already has and overwriting none, by exactly the
    parameters that are neither [null] nor [undefined], each as its string
    form, in the order of [Object.entries]: the parameters whose key is an
    array index first, by ascending index, then the others in the order
    they were inserted. For a mapping with no such key that is the insertion
    order. *)
Theorem buildUrl_appends_params (API path : string) (params : Params) :
  (∃ indexed,
     indexed ≡ₚ filter (λ entry, is_Some (array_index entry.1)) params ∧
     Sorted (λ a b : string * param,
               ∀ i j, array_index a.1 = Some i → array_index b.1 = Some j →
                      (i ≤ j)%N)
            indexed ∧
     buildUrl API path (Some params)
     = url ← URL_new (API +:+ path);
       mret (mkURL (href url)
               (searchParams url
                ++ omap query_entry
                     (indexed
                      ++ filter (λ entry, array_index entry.1 = None)
                           params)%list)))
  ∧ (Forall (λ entry, array_index entry.1 = None) params →
     buildUrl API path (Some params)
     = url ← URL_new (API +:+ path);
       mret (mkURL (href url) (searchParams url ++ omap query_entry params))).
Proof.
  split.
  - exists (snd <$> merge_sort index_le
                      (omap (λ entry, i ← array_index entry.1; Some (i, entry))
                            params)).
    split; [|split].
    + rewrite <- Object_entries_indexed. apply fmap_Permutation.
      apply merge_sort_Permutation.
    + apply Sorted_by_index.
      * apply (Sorted_merge_sort index_le).
      * rewrite merge_sort_Permutation. apply Object_entries_carry_index.
    + unfold buildUrl. destruct (URL_new _) as [url|e]; [|done].
      cbn. by rewrite buildUrl_loop, query_entries_omap.
  - intros Hplain. unfold buildUrl. destruct (URL_new _) as [url|e]; [|done].
    cbn. by rewrite buildUrl_loop, query_entries_omap, Object_entries_plain.
Qed.

(** ** Request merging *)

Lemma last_defined_None {A B : Type} (f : A → option B) (l : list (option A)) :
  (∀ j a, l !! j = Some (Some a) → f a = None) →
  last_defined f l = None.
Proof.
  induction l as [|o l IH]; intros Hall; [done|]. cbn.
  rewrite IH.
  - destruct o as [a|]; [|done]. exact (Hall 0 a eq_refl).
  - intros j a Hj. exact (Hall (S j) a Hj).
Qed.

Lemma last_defined_Some {A B : Type} (f : A → option B) (l : list (option A))
    (i : nat) (a : A) (b : B) :
  l !! i = Some (Some a) →
  f a = Some b →
  (∀ j a', i < j → l !! j = Some (Some a') → f a' = None) →
  last_defined f l = Some b.
Proof.
  revert i. induction l as [|o l IH]; intros i Hi Hb Hlater; [done|].
  destruct i as [|i]; cbn in *.
  - rewrite last_defined_None.
    + by simplify_eq.
    + intros j a' Hj. apply (Hlater (S j)); [lia|done].
  - erewrite IH; [done..|].
    intros j a' Hj Hl. apply (Hlater (S j)); [lia|done].
Qed.

Lemma last_defined_elem {A B : Type} (f : A → option B) (l : list (option A))
    (b : B) :
  last_defined f l = Some b → ∃ a, Some a ∈ l ∧ f a = Some b.
Proof.
  induction l as [|o l IH]; [done|]. cbn.
  destruct (last_defined f l) as [b'|].
  - intros [= ->]. destruct (IH eq_refl) as (a & Ha & Hb).
    exists a. split; [by right|done].
  - destruct o as [a|]; [|done]. cbn. intros Hb.
    exists a. split; [by left|done].
Qed.

Lemma last_defined_present {A B : Type} (f : A → option B)
    (l : list (option A)) (a : A) :
  Some a ∈ l → is_Some (f a) → is_Some (last_defined f l).
Proof.
  induction l as [|o l IH]; [by intros ?%elem_of_nil|].
  intros [<-|Hin]%elem_of_cons Hsome; cbn.
  - destruct (last_defined f l); [by eexists|done].
  - destruct (IH Hin Hsome) as [b ->]. by eexists.
Qed.

(** Lower-casing a name twice is lower-casing it once. *)
Lemma ascii_lowercase_idemp (c : ascii) :
  ascii_lowercase (ascii_lowercase c) = ascii_lowercase c.
Proof. by destruct c as [[] [] [] [] [] [] [] []]. Qed.

Lemma lowercase_idemp (s : string) : lowercase (lowercase s) = lowercase s.
Proof.
  induction s as [|c s IH]; [done|].
  cbn. by rewrite ascii_lowercase_idemp, IH.
Qed.

(** Normalising a value twice is normalising it once. *)
Lemma strip_trailing_idemp (s : string) :
  strip_trailing (strip_trailing s) = strip_trailing s.
Proof.
  induction s as [|c s IH]; [done|]. cbn [strip_trailing].
  destruct (strip_trailing s) as [|d rest] eqn:Hrest.
  - destruct (http_whitespace c) eqn:Hc; [done|]. cbn. by rewrite Hc.
  - change (strip_trailing (String c (String d rest)))
      with (match strip_trailing (String d rest) with
            | EmptyString =>
                if http_whitespace c then EmptyString else String c EmptyString
            | rest' => String c rest'
            end).
    by rewrite IH.
Qed.

Lemma strip_trailing_head (c : ascii) (s : string) :
  http_whitespace c = false →
  ∃ rest, strip_trailing (String c s) = String c rest.
Proof.
  intros Hc. cbn [strip_trailing].
  destruct (strip_trailing s); rewrite ?Hc; by eexists.
Qed.

Lemma normalize_idemp (val : string) : normalize (normalize val) = normalize val.
Proof.
  unfold normalize.
  assert (strip_leading val = EmptyString
          ∨ ∃ c s, strip_leading val = String c s ∧ http_whitespace c = false)
    as [->|(c & s & -> & Hc)].
  { induction val as [|c val IH]; [by left|]. cbn.
    destruct (http_whitespace c) eqn:Hc; [exact IH|]. right. by eexists _, _. }
  - done.
  - destruct (strip_trailing_head c s Hc) as [rest Hrest].
    rewrite Hrest. cbn [strip_leading]. rewrite Hc, <- Hrest.
    apply strip_trailing_idemp.
Qed.

(** What a merge carries over of a single value is that value, normalised. *)
Lemma carried_single (name val : string) : carried name [val] = normalize val.
Proof. unfold carried. by destruct (String.eqb _ _). Qed.

Lemma carried_lowercase (name : string) (values : list string) :
  carried (lowercase name) values = carried name values.
Proof. unfold carried. by rewrite lowercase_idemp. Qed.

Lemma well_formed_empty : well_formed ∅.
Proof. intros name values Hname. by rewrite lookup_empty in Hname. Qed.

Lemma well_formed_append (name val : string) (hs : Headers) :
  well_formed hs → well_formed (Headers_append name val hs).
Proof.
  intros Hhs name' values. unfold Headers_append.
  rewrite lookup_insert. case_decide as Hname; [|apply Hhs].
  intros [= <-]. subst name'. split; [apply lowercase_idemp|].
  split; [by destruct (default _ _)|].
  apply Forall_app. split.
  - destruct (hs !! lowercase name) as [old|] eqn:Hold; [|constructor].
    by destruct (Hhs _ _ Hold) as (_ & _ & ?).
  - constructor; [apply normalize_idemp|constructor].
Qed.

Lemma Headers_fill_well_formed (entries : list (string * string))
    (hs hs' : Headers) :
  Headers_fill entries hs = Normal hs' →
  well_formed hs → well_formed hs'.
Proof.
  revert hs. induction entries as [|[name val] entries IH]; intros hs; cbn.
  - by intros [= ->].
  - destruct (header_valid name _); [|done].
    intros Hfill Hhs. eapply IH; [done|]. by apply well_formed_append.
Qed.

Lemma headers_view_well_formed (request : RequestInit) (hs : Headers) :
  headers_view request = Some hs → well_formed hs.
Proof.
  unfold headers_view, Headers_new.
  destruct (headers request) as [| |[entries|hs0]]; cbn.
  - intros [= <-]. apply well_formed_empty.
  - intros [= <-]. apply well_formed_empty.
  - destruct (Headers_fill entries ∅) eqn:Hfill; [|done]. intros [= <-].
    eapply Headers_fill_well_formed; [done|]. apply well_formed_empty.
  - destruct (Headers_fill _ ∅) eqn:Hfill; [|done]. intros [= <-].
    eapply Headers_fill_well_formed; [done|]. apply well_formed_empty.
Qed.

(** Setting the pairs of one name leaves it with what the merge carries. *)
Lemma set_entry_pairs (name : string) (values : list string) (acc : Headers) :
  lowercase name = name →
  values ≠ [] →
  fold_left (λ acc '(key, val), Headers_set key val acc)
            (entry_pairs (name, values)) acc
  = <[name := [carried name values]]> acc.
Proof.
  intros Hname Hvalues. unfold entry_pairs, carried. rewrite Hname.
  cbn [fst snd]. destruct (String.eqb name "set-cookie").
  - destruct values as [|val values]; [done|]. clear Hvalues.
    assert (∀ values val acc,
              fold_left (λ acc '(key, val), Headers_set key val acc)
                        ((λ val, (name, val)) <$> values)
                        (Headers_set name val acc)
              = <[name := [normalize (default "" (last (val :: values)))]]>
                  acc) as Hfold.
    { clear val values acc.
      induction values as [|next values IH]; intros val acc.
      - cbn. unfold Headers_set. by rewrite Hname.
      - etrans; [apply (IH next (Headers_set name val acc))|].
        unfold Headers_set. rewrite Hname. by rewrite insert_insert_eq. }
    apply Hfold.
  - cbn. unfold Headers_set. by rewrite Hname.
Qed.

Lemma forEach_set_lookup (entries : list (string * list string))
    (acc : Headers) (key : string) :
  NoDup entries.*1 →
  (∀ name values, (name, values) ∈ entries →
                  lowercase name = name ∧ values ≠ []) →
  fold_left (λ acc '(key, val), Headers_set key val acc)
            (entries ≫= entry_pairs) acc !! key
  = match (list_to_map entries : Headers) !! key with
    | Some values => Some [carried key values]
    | None => acc !! key
    end.
Proof.
  revert acc. induction entries as [|[name values] entries IH];
    intros acc Hnodup Hentries; [done|].
  apply NoDup_cons in Hnodup as [Hfresh Hnodup].
  destruct (Hentries name values) as [Hname Hvalues]; [by left|].
  cbn [mbind list_bind]. rewrite fold_left_app.
  rewrite set_entry_pairs by done.
  rewrite IH; [|done|intros name' values' Hin; apply Hentries; by right].
  cbn [list_to_map foldr uncurry fst snd].
  destruct (decide (key = name)) as [->|Hkey].
  - rewrite (not_elem_of_list_to_map_1 _ _ Hfresh).
    by rewrite !lookup_insert_eq.
  - by rewrite !lookup_insert_ne.
Qed.

(** The names with their values, sorted, are those of the object. *)
Lemma sorted_entries_NoDup (hs : Headers) :
  NoDup (merge_sort name_le (map_to_list hs)).*1.
Proof. rewrite merge_sort_Permutation. apply NoDup_fst_map_to_list. Qed.

Lemma sorted_entries_elem_of (hs : Headers) (name : string)
    (values : list string) :
  (name, values) ∈ merge_sort name_le (map_to_list hs)
  ↔ hs !! name = Some values.
Proof. rewrite merge_sort_Permutation. apply elem_of_map_to_list. Qed.

Lemma sorted_entries_to_map (hs : Headers) :
  list_to_map (merge_sort name_le (map_to_list hs)) = hs.
Proof.
  rewrite <- (list_to_map_to_list hs) at 2.
  apply list_to_map_proper; [apply sorted_entries_NoDup|].
  apply merge_sort_Permutation.
Qed.

(** Setting every entry of [hs] on [acc] lays over [acc], for each name of
    [hs], what the merge carries of it. *)
Lemma Headers_forEach_set (hs acc : Headers) (key : string) :
  well_formed hs →
  Headers_forEach hs (λ value key, Headers_set key value) acc !! key
  = match hs !! key with
    | Some values => Some [carried key values]
    | None => acc !! key
    end.
Proof.
  intros Hhs. unfold Headers_forEach, Headers_entries.
  etrans; [apply forEach_set_lookup|].
  - apply sorted_entries_NoDup.
  - intros name values Hin%sorted_entries_elem_of.
    by destruct (Hhs name values Hin) as (? & ? & _).
  - by rewrite sorted_entries_to_map.
Qed.

Lemma last_defined_fmap {A B C : Type} (f : A → option B) (g : B → C)
    (l : list (option A)) :
  last_defined (λ a, g <$> f a) l = g <$> last_defined f l.
Proof.
  induction l as [|o l IH]; [done|]. cbn. rewrite IH.
  destruct (last_defined f l); [done|]. by destruct o.
Qed.

Lemma last_defined_ext {A B : Type} (f g : A → option B)
    (l : list (option A)) :
  (∀ a, f a = g a) → last_defined f l = last_defined g l.
Proof.
  intros Hfg. induction l as [|o l IH]; [done|]. cbn. rewrite IH.
  destruct (last_defined g l); [done|]. destruct o; [apply Hfg|done].
Qed.

Lemma mergeRequests_loop_spec (requests : list (option RequestInit))
    (mergedResult : RequestInit) (mergedHeaders : Headers) :
  (∀ request, Some request ∈ requests → is_Some (headers_view request)) →
  ∃ mergedResult' mergedHeaders',
    mergeRequests_loop requests mergedResult mergedHeaders
      = Normal (mergedResult', mergedHeaders') ∧
    (∀ k, fields mergedResult' !! k
          = match last_defined (λ request, fields request !! k) requests with
            | Some x => Some x
            | None => fields mergedResult !! k
            end) ∧
    (∀ key, mergedHeaders' !! key
            = match last_defined
                      (λ request, hs ← headers_view request;
                                  values ← hs !! key;
                                  Some [carried key values])
                      requests with
              | Some x => Some x
              | None => mergedHeaders !! key
              end).
Proof.
  revert mergedResult mergedHeaders.
  induction requests as [|[request|] requests IH];
    intros mergedResult mergedHeaders Hvalid.
  - by eexists _, _.
  - destruct (Hvalid request) as [hs Hview]; [by left|].
    pose proof (headers_view_well_formed _ _ Hview) as Hhs.
    unfold headers_view in Hview. cbn [mergeRequests_loop].
    destruct (Headers_new (headers request)) as [hs'|] eqn:Hnew; [|done].
    injection Hview as ->. cbn [mbind completion_bind].
    edestruct (IH (RequestInit_spread mergedResult request)) as
      (mergedResult' & mergedHeaders' & -> & Hfields & Hheaders).
    { intros request' Hin. apply Hvalid. by right. }
    eexists _, _. split; [done|]. split.
    + intros k. rewrite Hfields. cbn [last_defined].
      destruct (last_defined _ requests); [done|]. cbn.
      rewrite lookup_union. by destruct (fields request !! k), (fields mergedResult !! k).
    + intros key. rewrite Hheaders. cbn [last_defined].
      destruct (last_defined _ requests); [done|].
      rewrite Headers_forEach_set by done.
      unfold headers_view. cbn. rewrite Hnew. cbn.
      by destruct (hs !! key).
  - cbn [mergeRequests_loop last_defined]. 
    edestruct (IH mergedResult mergedHeaders) as
      (mergedResult' & mergedHeaders' & -> & Hfields & Hheaders).
    { intros request' Hin. apply Hvalid. by right. }
    eexists _, _. split; [done|]. split.
    + intros k. rewrite Hfields. by destruct (last_defined _ requests).
    + intros key. rewrite Hheaders. by destruct (last_defined _ requests).
Qed.

Lemma header_of_values (name : string) (request : RequestInit) :
  header_of name request = combined <$> header_values name request.
Proof.
  unfold header_of, header_values, Headers_get.
  by destruct (headers_view request).
Qed.

(** A header is given by a specification exactly when the merge carries
    something of it over. *)
Lemma carried_header_None (name : string) (request : RequestInit) :
  carried_header name request = None ↔ header_of name request = None.
Proof.
  rewrite header_of_values. unfold carried_header.
  by destruct (header_values name request).
Qed.

Lemma carried_header_is_Some (name : string) (request : RequestInit) :
  is_Some (carried_header name request) ↔ is_Some (header_of name request).
Proof.
  rewrite header_of_values. unfold carried_header.
  destruct (header_values name request); cbn; split; intros [? ?];
    by eexists.
Qed.

(** The headers a merge gives, read by name. *)
Lemma mergeRequests_loop_get (requests : list (option RequestInit))
    (mergedHeaders : Headers) (name : string) :
  (∀ key, mergedHeaders !! key
          = match last_defined
                    (λ request, hs ← headers_view request;
                                values ← hs !! key;
                                Some [carried key values])
                    requests with
            | Some x => Some x
            | None => (∅ : Headers) !! key
            end) →
  Headers_get name mergedHeaders
  = last_defined (carried_header name) requests.
Proof.
  intros Hheaders. unfold Headers_get. rewrite Hheaders.
  rewrite (last_defined_ext _
             (λ request, (λ x, [x]) <$> carried_header name request)).
  2:{ intros request. unfold carried_header, header_values.
      destruct (headers_view request) as [hs|]; [|done]. cbn.
      destruct (hs !! lowercase name); [|done]. cbn.
      by rewrite carried_lowercase. }
  rewrite last_defined_fmap.
  destruct (last_defined _ requests); [done|]. by rewrite lookup_empty.
Qed.

(** C5, as the code has it. When every request specification given has
    headers [new Headers] accepts, [mergeRequests] returns a specification
    whose [headers] is a [Headers] object and in which: a field other than
    [headers] has the value of the last specification that defines it, and
    comes from one of them; every header of any specification is present;
    a header has what the merge carries over of the last specification, in
    argument order, that defines it, that is, of [Set-Cookie] the last of
    its values there and of any other header its combined value there,
    without the whitespace at the ends; so a header to which that
    specification gives one value has that value, unchanged; and every
    header comes from one of the specifications. *)
Theorem mergeRequests_last_wins (requests : list (option RequestInit)) :
  (∀ request, Some request ∈ requests → is_Some (headers_view request)) →
  ∃ merged mergedHeaders,
    mergeRequests requests = Normal merged ∧
    headers merged = Present (InitHeaders mergedHeaders) ∧
    (∀ i request k x,
       requests !! i = Some (Some request) →
       fields request !! k = Some x →
       (∀ j later, i < j → requests !! j = Some (Some later) →
                   fields later !! k = None) →
       fields merged !! k = Some x) ∧
    (∀ k, is_Some (fields merged !! k) →
          ∃ request, Some request ∈ requests ∧ is_Some (fields request !! k)) ∧
    (∀ request name,
       Some request ∈ requests →
       is_Some (header_of name request) →
       is_Some (Headers_get name mergedHeaders)) ∧
    (∀ i request name values,
       requests !! i = Some (Some request) →
       header_values name request = Some values →
       (∀ j later, i < j → requests !! j = Some (Some later) →
                   header_of name later = None) →
       Headers_get name mergedHeaders
       = Some (normalize
                 (if String.eqb (lowercase name) "set-cookie"
                  then default "" (last values)
                  else String.concat ", " values))) ∧
    (∀ i request name val,
       requests !! i = Some (Some request) →
       header_values name request = Some [val] →
       (∀ j later, i < j → requests !! j = Some (Some later) →
                   header_of name later = None) →
       header_of name request = Some val ∧
       Headers_get name mergedHeaders = Some val) ∧
    (∀ name, is_Some (Headers_get name mergedHeaders) →
             ∃ request, Some request ∈ requests
                        ∧ is_Some (header_of name request)).
Proof.
  intros Hvalid.
  destruct (mergeRequests_loop_spec requests empty_init ∅ Hvalid)
    as (mergedResult & mergedHeaders & Hloop & Hfields & Hheaders).
  exists (mkRequestInit (Present (InitHeaders mergedHeaders))
                        (fields mergedResult)), mergedHeaders.
  pose proof (λ name, mergeRequests_loop_get requests mergedHeaders name
                        Hheaders) as Hget.
  assert (∀ k, fields mergedResult !! k
               = last_defined (λ request, fields request !! k) requests)
    as Hfield.
  { intros k. rewrite Hfields.
    destruct (last_defined _ requests); [done|]. apply lookup_empty. }
  assert (∀ i request name values,
            requests !! i = Some (Some request) →
            header_values name request = Some values →
            (∀ j later, i < j → requests !! j = Some (Some later) →
                        header_of name later = None) →
            Headers_get name mergedHeaders = Some (carried name values))
    as Hlast.
  { intros i request name values Hi Hvalues Hlater. rewrite Hget.
    eapply last_defined_Some; [exact Hi| |].
    - unfold carried_header. by rewrite Hvalues.
    - intros j later Hj Hlater'. apply carried_header_None. by eapply Hlater. }
  split; [|split; [done|]].
  { unfold mergeRequests. by rewrite Hloop. }
  cbn [fields]. split; [|split; [|split; [|split; [exact Hlast|split]]]].
  - intros i request k x Hi Hx Hlater. rewrite Hfield.
    by eapply last_defined_Some.
  - intros k [x Hx]. rewrite Hfield in Hx.
    destruct (last_defined_elem _ _ _ Hx) as (request & Hin & Hk).
    exists request. split; [done|by eexists].
  - intros request name Hin Hsome. rewrite Hget.
    eapply last_defined_present; [done|]. by apply carried_header_is_Some.
  - intros i request name val Hi Hvalues Hlater. split.
    + rewrite header_of_values. by rewrite Hvalues.
    + rewrite (Hlast _ _ _ _ Hi Hvalues Hlater), carried_single.
      unfold header_values in Hvalues.
      destruct (headers_view request) as [hs|] eqn:Hview; [|done].
      cbn in Hvalues.
      destruct (headers_view_well_formed _ _ Hview _ _ Hvalues)
        as (_ & _ & Hnorm).
      apply Forall_cons in Hnorm as [-> _]. done.
  - intros name [x Hx]. rewrite Hget in Hx.
    destruct (last_defined_elem _ _ _ Hx) as (request & Hin & Hk).
    exists request. split; [done|].
    apply carried_header_is_Some. by eexists.
Qed.

(** The condition of C5 is the one under which [mergeRequests] returns:
    headers [new Headers] rejects make it throw the [TypeError]. *)
Lemma Headers_fill_throws (entries : list (string * string)) (hs : Headers)
    (e : js_error) :
  Headers_fill entries hs = Throw e → e = TypeError.
Proof.
  revert hs. induction entries as [|[name val] entries IH]; intros hs; [done|].
  cbn. destruct (header_valid name _); [apply IH|]. by intros [= <-].
Qed.

Lemma mergeRequests_loop_throws (requests : list (option RequestInit))
    (mergedResult : RequestInit) (mergedHeaders : Headers)
    (request : RequestInit) :
  Some request ∈ requests →
  headers_view request = None →
  mergeRequests_loop requests mergedResult mergedHeaders = Throw TypeError.
Proof.
  revert mergedResult mergedHeaders.
  induction requests as [|[request'|] requests IH];
    intros mergedResult mergedHeaders Hin Hview.
  - by apply elem_of_nil in Hin.
  - cbn [mergeRequests_loop].
    destruct (Headers_new (headers request')) as [hs|e] eqn:Hnew.
    + cbn. apply IH; [|done].
      apply elem_of_cons in Hin as [[= ->]|Hin]; [|done].
      unfold headers_view in Hview. by rewrite Hnew in Hview.
    + cbn. f_equal. unfold Headers_new in Hnew.
      destruct (headers request') as [| |[entries|hs]]; try done;
        by apply Headers_fill_throws in Hnew.
  - cbn [mergeRequests_loop]. apply IH; [|done].
    by apply elem_of_cons in Hin as [?|Hin].
Qed.

Lemma mergeRequests_throws (requests : list (option RequestInit))
    (request : RequestInit) :
  Some request ∈ requests →
  headers_view request = None →
  mergeRequests requests = Throw TypeError.
Proof.
  intros Hin Hview. unfold mergeRequests.
  by rewrite (mergeRequests_loop_throws _ _ _ _ Hin Hview).
Qed.

(** ** The timeout-guarded send *)

(** The [try] block, stage by stage. *)
Lemma fetchWithTimeout_try_run (this : Infinibrowser) (url : URL)
    (init : RequestInit) (controller timer : nat) (σ : runtime) :
  fetchWithTimeout_try this url init controller timer σ
  = match built_request this url init controller with
    | Throw e => (Throw e, σ)
    | Normal request =>
        let σ1 := logged (EvFetch request) σ in
        match network request with
        | Rejected e => (Throw e, σ1)
        | TimedOut => (Throw abort_error, fire timer σ1)
        | Fulfilled response =>
            match text response with
            | Rejected e => (Throw e, σ1)
            | TimedOut => (Throw abort_error, fire timer σ1)
            | Fulfilled body =>
                match JSON_parse body with
                | None => (Throw SyntaxError, σ1)
                | Some data =>
                    (Normal (if Response_ok response
                             then Success data response
                             else NotOk data response), σ1)
                end
            end
        end
    end.
Proof.
  unfold fetchWithTimeout_try, built_request, lift, fetch, await, parse.
  unfold mbind, M_bind, mret, M_ret, logged, abort_error.
  destruct (mergeRequests _) as [requestInit|e]; cbn; [|done].
  destruct (Request_new url requestInit) as [request|e]; cbn; [|done].
  destruct (network request) as [response|e|]; cbn; [|done..].
  destruct (Response_ok response); cbn;
    (destruct (text response) as [body|e|]; cbn; [|done..]);
    by destruct (JSON_parse body).
Qed.

(** The whole call: the [catch] turns an exception of the [try] block into a
    result and the [finally] clears the timer. *)
Lemma fetchWithTimeout_run (this : Infinibrowser) (url : URL)
    (init : RequestInit) (σ : runtime) :
  fetchWithTimeout this url init σ
  = match fetchWithTimeout_try this url init (controllers σ) (new_timer σ)
            (at_try this σ) with
    | (Normal r, σ1) => (Normal r, cleared (new_timer σ) σ1)
    | (Throw e, σ1) => (Normal (Failed (handleError e)), cleared (new_timer σ) σ1)
    end.
Proof.
  unfold fetchWithTimeout, AbortController_new, setTimeout, try_finally,
    try_catch, clearTimeout, at_try, new_timer, cleared.
  unfold mbind, M_bind, mret, M_ret. cbn.
  by destruct (fetchWithTimeout_try _ _ _ _ _ _) as [[r|e] σ1].
Qed.

Lemma new_timer_fresh (σ : runtime) : timers σ !! new_timer σ = None.
Proof. apply not_elem_of_dom. unfold new_timer. apply is_fresh. Qed.

Lemma timers_cleared (this : Infinibrowser) (σ : runtime) (ev : event) :
  timers (cleared (new_timer σ) (logged ev (at_try this σ))) = timers σ
  ∧ timers (cleared (new_timer σ) (fire (new_timer σ) (logged ev (at_try this σ))))
    = timers σ
  ∧ timers (cleared (new_timer σ) (at_try this σ)) = timers σ.
Proof.
  pose proof (new_timer_fresh σ) as Hfresh.
  unfold cleared, fire, logged, at_try. cbn. rewrite lookup_insert_eq. cbn.
  by rewrite !delete_insert_eq, !delete_id.
Qed.

(** C1. When the request is built and sent, the response comes with a status
    outside 200..299 and its body is a JSON text, the call returns (it does
    not throw) the value [{ ok: false, error_code: "NOT_OK", response, data }]
    with the parsed body as [data] and that response. *)
Theorem fetchWithTimeout_not_ok (this : Infinibrowser) (url : URL)
    (init : RequestInit) (σ : runtime) (request : Request)
    (response : Response) (body : string) (data : value) :
  built_request this url init (controllers σ) = Normal request →
  network request = Fulfilled response →
  ¬ (200 ≤ status response ≤ 299)%Z →
  text response = Fulfilled body →
  JSON_parse body = Some data →
  ∃ r, (fetchWithTimeout this url init σ).1 = Normal r
       ∧ r = NotOk data response
       ∧ ok r = false
       ∧ error_code r = Some "NOT_OK".
Proof.
  intros Hrequest Hnetwork Hstatus Htext Hparse.
  exists (NotOk data response). split; [|done].
  rewrite fetchWithTimeout_run, fetchWithTimeout_try_run.
  rewrite Hrequest. cbn zeta. rewrite Hnetwork, Htext, Hparse.
  unfold Response_ok. by rewrite bool_decide_eq_false_2.
Qed.

(** C10. When the request is built and sent, the response comes with a status
    outside 200..299 and its body is not a JSON text, the call returns the
    transport error [SYNTAX_ERROR], not [NOT_OK]. *)
Theorem fetchWithTimeout_not_ok_bad_body (this : Infinibrowser) (url : URL)
    (init : RequestInit) (σ : runtime) (request : Request)
    (response : Response) (body : string) :
  built_request this url init (controllers σ) = Normal request →
  network request = Fulfilled response →
  ¬ (200 ≤ status response ≤ 299)%Z →
  text response = Fulfilled body →
  JSON_parse body = None →
  ∃ r, (fetchWithTimeout this url init σ).1 = Normal r
       ∧ r = Failed (mkFetchResponseError SYNTAX_ERROR SyntaxError)
       ∧ error_code r = Some "SYNTAX_ERROR"
       ∧ error_code r ≠ Some "NOT_OK".
Proof.
  intros Hrequest Hnetwork Hstatus Htext Hparse.
  eexists. split; [|done].
  rewrite fetchWithTimeout_run, fetchWithTimeout_try_run.
  rewrite Hrequest. cbn zeta. by rewrite Hnetwork, Htext, Hparse.
Qed.

Lemma cleared_unsent (this : Infinibrowser) (σ : runtime) (r : FetchResponse) :
  returns_with_timer_cleared this σ
    (Normal r, cleared (new_timer σ) (at_try this σ)).
Proof.
  pose proof (new_timer_fresh σ) as Hfresh.
  eexists _, _, []. split; [done|]. split; [by apply not_elem_of_dom|].
  split; [apply (timers_cleared this σ (EvTimerFired 0))|].
  split; [|by intros ev ?%elem_of_nil].
  cbn. by rewrite <- !app_assoc.
Qed.

Lemma cleared_sent (this : Infinibrowser) (σ : runtime) (request : Request)
    (r : FetchResponse) :
  returns_with_timer_cleared this σ
    (Normal r,
     cleared (new_timer σ) (logged (EvFetch request) (at_try this σ))).
Proof.
  pose proof (new_timer_fresh σ) as Hfresh.
  eexists _, _, [EvFetch request]. split; [done|].
  split; [by apply not_elem_of_dom|].
  split; [apply (timers_cleared this σ (EvFetch request))|]. split.
  - cbn. by rewrite <- !app_assoc.
  - intros ev ->%list_elem_of_singleton. left. by eexists.
Qed.

Lemma cleared_fired (this : Infinibrowser) (σ : runtime) (request : Request)
    (r : FetchResponse) :
  returns_with_timer_cleared this σ
    (Normal r,
     cleared (new_timer σ)
       (fire (new_timer σ) (logged (EvFetch request) (at_try this σ)))).
Proof.
  pose proof (new_timer_fresh σ) as Hfresh.
  eexists _, _, [EvFetch request; EvTimerFired (new_timer σ)].
  split; [done|]. split; [by apply not_elem_of_dom|].
  split; [apply (timers_cleared this σ (EvFetch request))|]. split.
  - unfold cleared, fire, logged, at_try. cbn. rewrite lookup_insert_eq. cbn.
    by rewrite <- !app_assoc.
  - intros ev [->|Hev]%elem_of_cons; [left; by eexists|].
    apply list_elem_of_singleton in Hev as ->. by right.
Qed.

(** The success path, for comparison: a status in 200..299 and a JSON body
    give [{ ok: true, data, response }]. *)
Lemma fetchWithTimeout_ok (this : Infinibrowser) (url : URL)
    (init : RequestInit) (σ : runtime) (request : Request)
    (response : Response) (body : string) (data : value) :
  built_request this url init (controllers σ) = Normal request →
  network request = Fulfilled response →
  (200 ≤ status response ≤ 299)%Z →
  text response = Fulfilled body →
  JSON_parse body = Some data →
  (fetchWithTimeout this url init σ).1 = Normal (Success data response).
Proof.
  intros Hrequest Hnetwork Hstatus Htext Hparse.
  rewrite fetchWithTimeout_run, fetchWithTimeout_try_run.
  rewrite Hrequest. cbn zeta. rewrite Hnetwork, Htext, Hparse.
  unfold Response_ok. by rewrite bool_decide_eq_true_2.
Qed.

(** C9. Every call returns one result, and its timer, set before anything
    else, is cleared at the end: the pending timers are those of before the
    call, and the call's events are the setting of the timer, then at most a
    request and the firing of that timer, then the clearing of the timer. *)
Theorem fetchWithTimeout_clears_timer (this : Infinibrowser) (url : URL)
    (init : RequestInit) (σ : runtime) :
  ∃ r σ' events,
    fetchWithTimeout this url init σ = (Normal r, σ') ∧
    (new_timer σ ∉ dom (timers σ)) ∧
    timers σ' = timers σ ∧
    trace σ' = (trace σ
                ++ [EvSetTimeout (new_timer σ) (controllers σ)
                                 (timeout (config this))]
                ++ events
                ++ [EvClearTimeout (new_timer σ)])%list ∧
    (∀ ev, ev ∈ events →
           (∃ request, ev = EvFetch request) ∨ ev = EvTimerFired (new_timer σ)).
Proof.
  change (returns_with_timer_cleared this σ (fetchWithTimeout this url init σ)).
  rewrite fetchWithTimeout_run, fetchWithTimeout_try_run.
  destruct (built_request _ _ _ _) as [request|e]; [|apply cleared_unsent].
  cbn zeta.
  destruct (network request) as [response|e|];
    [|apply cleared_sent|apply cleared_fired].
  destruct (text response) as [body|e|];
    [|apply cleared_sent|apply cleared_fired].
  destruct (JSON_parse body) as [data|]; apply cleared_sent.
Qed.

(** The code [handleError] gives, by the kind of the exception. *)
Lemma handleError_code (e : js_error) :
  error (handleError e) = e
  ∧ (e = SyntaxError → transport_error_code (handleError e) = SYNTAX_ERROR)
  ∧ (e = abort_error → transport_error_code (handleError e) = TIMEOUT)
  ∧ (e ≠ SyntaxError → e ≠ abort_error →
     transport_error_code (handleError e) = UNKNOWN_ERROR).
Proof.
  unfold abort_error.
  destruct e as [|name| | |]; cbn; try by repeat split.
  destruct (String.eqb_spec name "AbortError") as [->|Hname]; cbn.
  - by repeat split.
  - repeat split; try done. intros [= ->]. done.
Qed.

Lemma fetchWithTimeout_returns (this : Infinibrowser) (url : URL)
    (init : RequestInit) (σ : runtime) :
  ∃ r σ', fetchWithTimeout this url init σ = (Normal r, σ').
Proof.
  rewrite fetchWithTimeout_run.
  destruct (fetchWithTimeout_try _ _ _ _ _ _) as [[r|e] σ1]; by eexists _, _.
Qed.

(** C2. No exception leaves the call: it returns a result. An exception [e]
    raised in the [try] block (building the request, sending it, reading or
    parsing the body) comes back as the transport error carrying [e], with
    code [SYNTAX_ERROR] for a [SyntaxError], [TIMEOUT] for the abort error,
    and [UNKNOWN_ERROR] for anything else. A body that is not a JSON text
    gives [SYNTAX_ERROR], and the timer firing while the response or its body
    is awaited gives [TIMEOUT]. *)
Theorem fetchWithTimeout_catches (this : Infinibrowser) (url : URL)
    (init : RequestInit) (σ : runtime) :
  (∃ r σ', fetchWithTimeout this url init σ = (Normal r, σ')) ∧
  (∀ e σ1,
     fetchWithTimeout_try this url init (controllers σ) (new_timer σ)
       (at_try this σ) = (Throw e, σ1) →
     ∃ code,
       (fetchWithTimeout this url init σ).1
         = Normal (Failed (mkFetchResponseError code e)) ∧
       (e = SyntaxError → code = SYNTAX_ERROR) ∧
       (e = DOMException "AbortError" → code = TIMEOUT) ∧
       (e ≠ SyntaxError → e ≠ DOMException "AbortError" →
        code = UNKNOWN_ERROR)) ∧
  (∀ request response body,
     built_request this url init (controllers σ) = Normal request →
     network request = Fulfilled response →
     text response = Fulfilled body →
     JSON_parse body = None →
     (fetchWithTimeout this url init σ).1
       = Normal (Failed (mkFetchResponseError SYNTAX_ERROR SyntaxError))) ∧
  (∀ request,
     built_request this url init (controllers σ) = Normal request →
     network request = TimedOut
     ∨ (∃ response, network request = Fulfilled response
                    ∧ text response = TimedOut) →
     (fetchWithTimeout this url init σ).1
       = Normal (Failed (mkFetchResponseError TIMEOUT
                           (DOMException "AbortError")))) ∧
  (∀ request e,
     built_request this url init (controllers σ) = Normal request →
     network request = Rejected e
     ∨ (∃ response, network request = Fulfilled response
                    ∧ text response = Rejected e) →
     e ≠ SyntaxError → e ≠ DOMException "AbortError" →
     (fetchWithTimeout this url init σ).1
       = Normal (Failed (mkFetchResponseError UNKNOWN_ERROR e))).
Proof.
  split; [|split; [|split; [|split]]].
  - apply fetchWithTimeout_returns.
  - intros e σ1 Htry. rewrite fetchWithTimeout_run, Htry. cbn.
    destruct (handleError_code e) as (Herror & Hsyntax & Habort & Hother).
    exists (transport_error_code (handleError e)).
    split; [|by repeat split].
    rewrite <- Herror at 3. by destruct (handleError e).
  - intros request response body Hrequest Hnetwork Htext Hparse.
    rewrite fetchWithTimeout_run, fetchWithTimeout_try_run, Hrequest.
    cbn zeta. by rewrite Hnetwork, Htext, Hparse.
  - intros request Hrequest Hfired.
    rewrite fetchWithTimeout_run, fetchWithTimeout_try_run, Hrequest.
    cbn zeta. destruct Hfired as [->|(response & -> & ->)]; done.
  - intros request e Hrequest Hrejected Hsyntax Habort.
    rewrite fetchWithTimeout_run, fetchWithTimeout_try_run, Hrequest.
    cbn zeta.
    destruct (handleError_code e) as (Herror & _ & _ & Hother).
    specialize (Hother Hsyntax Habort).
    assert (handleError e = mkFetchResponseError UNKNOWN_ERROR e) as Hcode.
    { destruct (handleError e); cbn in *; congruence. }
    destruct Hrejected as [->|(response & -> & ->)]; cbn; by rewrite Hcode.
Qed.

Lemma mergeRequests_loop_fields (requests : list (option RequestInit))
    (mergedResult mergedResult' : RequestInit)
    (mergedHeaders mergedHeaders' : Headers) :
  mergeRequests_loop requests mergedResult mergedHeaders
    = Normal (mergedResult', mergedHeaders') →
  ∀ k, fields mergedResult' !! k
       = match last_defined (λ request, fields request !! k) requests with
         | Some x => Some x
         | None => fields mergedResult !! k
         end.
Proof.
  revert mergedResult mergedHeaders.
  induction requests as [|[request|] requests IH];
    intros mergedResult mergedHeaders Hloop k.
  - by injection Hloop as <- _.
  - cbn [mergeRequests_loop] in Hloop.
    destruct (Headers_new (headers request)) as [hs|]; [|done].
    cbn [mbind completion_bind] in Hloop.
    rewrite (IH _ _ Hloop k). cbn [last_defined].
    destruct (last_defined _ requests); [done|]. cbn.
    rewrite lookup_union.
    by destruct (fields request !! k), (fields mergedResult !! k).
  - cbn [mergeRequests_loop] in Hloop. rewrite (IH _ _ Hloop k). cbn.
    by destruct (last_defined _ requests).
Qed.

(** What the request of a call carries: the URL it was given, and for each
    field other than [headers] the value of the forced [signal], else of the
    call's own options, else of the client's [request] option. *)
Lemma built_request_fields (this : Infinibrowser) (url : URL)
    (init : RequestInit) (controller : nat) (built : Request) :
  built_request this url init controller = Normal built →
  request_url built = url
  ∧ ∀ k, fields (request_init built) !! k
         = match ({["signal" := ISignal controller]}
                    : gmap string init_value) !! k with
           | Some x => Some x
           | None =>
               match fields init !! k with
               | Some x => Some x
               | None => base ← optional_get (request (config this));
                         fields base !! k
               end
           end.
Proof.
  unfold built_request, mergeRequests. intros Hbuilt.
  destruct (mergeRequests_loop _ _ _) as [[mergedResult mergedHeaders]|e]
    eqn:Hloop; [|done].
  cbn in Hbuilt. unfold Request_new in Hbuilt.
  destruct (Request_invalid _ _); [done|]. injection Hbuilt as <-.
  split; [done|]. intros k. cbn [request_init fields].
  rewrite (mergeRequests_loop_fields _ _ _ _ _ Hloop k).
  cbn [last_defined mbind option_bind fields].
  destruct (({["signal" := ISignal controller]} : gmap string init_value) !! k);
    [done|].
  destruct (fields init !! k); [done|].
  destruct (optional_get _) as [base|]; cbn; [|done].
  by destruct (fields base !! k).
Qed.

(** ** The endpoints *)

(** C6. On the empty sequence [shareLineage] raises the error
    "Lineage must not be empty" and leaves the runtime as it was: no timer is
    set and no request is sent, and what comes back is the exception, not a
    result value. *)
Theorem shareLineage_empty (this : Infinibrowser) (σ : runtime) :
  ∃ e σ',
    shareLineage this [] σ = (Throw e, σ') ∧
    e = PlainError "Lineage must not be empty" ∧
    σ' = σ ∧
    trace σ' = trace σ ∧
    timers σ' = timers σ.
Proof. by eexists _, _. Qed.


(** C8, where the code departs from it. The URL is built before the [try]:
    when the base URL followed by the path is no URL, the GET and POST
    primitives, and so every endpoint, throw the [TypeError] of [new URL]
    instead of returning a result. *)
Theorem endpoint_throws_on_malformed_URL (this : Infinibrowser)
    (path : string) (params : option Params) (σ : runtime) :
  URL_parse (API_URL (config this) +:+ path) = None →
  get this path params σ = (Throw TypeError, σ)
  ∧ (∀ payload, post this path params payload σ = (Throw TypeError, σ)).
Proof.
  intros Hurl. unfold get, post, buildUrl, URL_new. rewrite Hurl. done.
Qed.

(** The text the POST primitive serialises is the one the statements name. *)
Lemma stringify_serialised (payload : option value) :
  JSON_stringify (or_empty payload) = serialised payload.
Proof. by destruct payload as [[]|]. Qed.

(** Past the URL, and for a POST the serialisation of the payload, nothing
    is thrown: the GET and POST primitives return a result. *)
Lemma get_returns (this : Infinibrowser) (path : string)
    (params : option Params) (σ : runtime) (url : URL) :
  URL_parse (API_URL (config this) +:+ path) = Some url →
  ∃ r σ', get this path params σ = (Normal r, σ').
Proof.
  intros Hurl. unfold get, buildUrl, URL_new. rewrite Hurl.
  destruct params as [params|]; apply fetchWithTimeout_returns.
Qed.

Lemma post_returns (this : Infinibrowser) (path : string)
    (params : option Params) (payload : option value) (σ : runtime)
    (url : URL) (body : string) :
  URL_parse (API_URL (config this) +:+ path) = Some url →
  serialised payload = Some body →
  ∃ r σ', post this path params payload σ = (Normal r, σ').
Proof.
  intros Hurl Hbody. unfold post, buildUrl, URL_new, stringify.
  rewrite Hurl, stringify_serialised, Hbody.
  destruct params as [params|]; apply fetchWithTimeout_returns.
Qed.

(** A payload with no JSON text makes the POST primitive throw, once the
    URL is built and before anything runs. *)
Lemma post_throws (this : Infinibrowser) (path : string)
    (params : option Params) (payload : option value) (σ : runtime)
    (url : URL) :
  URL_parse (API_URL (config this) +:+ path) = Some url →
  serialised payload = None →
  post this path params payload σ = (Throw TypeError, σ).
Proof.
  intros Hurl Hbody. unfold post, buildUrl, URL_new, stringify.
  rewrite Hurl, stringify_serialised, Hbody. by destruct params.
Qed.

(** ** Refinement of a client *)

(** C4, as the code has it. [$refined] allocates a new instance and leaves
    every other instance, the original among them, as it was. The new
    configuration is the shallow merge: [API_URL] and [timeout] are the given
    ones, and [request] is the given one when the given configuration has the
    property, the original's otherwise. A given [request] replaces the
    original's whole, headers included. *)
Theorem refined_shallow_merge (σ : store) (this : nat)
    (cfg : InfinibrowserConfig) (client : Infinibrowser) :
  σ !! this = Some client →
  ∃ new σ' refined_client,
    refined this cfg σ = Some (new, σ') ∧
    (new ∉ dom σ) ∧
    σ' !! new = Some refined_client ∧
    (∀ other, other ≠ new → σ' !! other = σ !! other) ∧
    σ' !! this = Some client ∧
    API_URL (config refined_client) = API_URL cfg ∧
    timeout (config refined_client) = timeout cfg ∧
    request (config refined_client)
      = match request cfg with
        | Absent => request (config client)
        | given => given
        end ∧
    (∀ given, request cfg = Present given →
              request (config refined_client) = Present given).
Proof.
  intros Hthis. unfold refined. rewrite Hthis. cbn.
  pose proof (is_fresh (dom σ)) as Hfresh.
  assert (this ≠ fresh (dom σ)) as Hne.
  { intros Heq. apply Hfresh. rewrite <- Heq. apply elem_of_dom. by eexists. }
  eexists _, _, _. split; [done|]. split; [done|].
  split; [apply lookup_insert_eq|].
  split; [intros other Hother; by rewrite lookup_insert_ne|].
  split; [by rewrite lookup_insert_ne|].
  cbn. repeat split.
  - by destruct (request cfg).
  - by intros given ->.
Qed.

End Properties.

(** * Further properties *)

Section Further.
Context `{host : Host}.

(** ** [buildUrl] *)

(** [Object.entries] enumerates properties of the mapping only. *)
Lemma Object_entries_elem_of (params : Params) (entry : string * param) :
  entry ∈ Object_entries params → entry ∈ params.
Proof.
  unfold Object_entries. rewrite elem_of_app. intros [Hin|Hin].
  - apply list_elem_of_fmap in Hin as ([i entry'] & -> & Hin).
    rewrite merge_sort_Permutation in Hin.
    apply list_elem_of_omap in Hin as (entry'' & Hin & Hsome).
    destruct (array_index entry''.1); [|done]. by injection Hsome as _ ->.
  - by apply list_elem_of_filter in Hin as [_ ?].
Qed.

(** X1. A mapping whose values are all [null] or [undefined], the empty mapping
    among them, builds the URL that no mapping builds. *)
Theorem buildUrl_nullish_params (API path : string) (params : Params) :
  Forall (λ entry, not_nullish entry.2 = false) params →
  buildUrl API path (Some params) = buildUrl API path None.
Proof.
  intros Hnull. unfold buildUrl.
  destruct (URL_new _) as [url|e]; [|done]. cbn.
  rewrite buildUrl_loop. f_equal.
  assert (Forall (λ entry, not_nullish entry.2 = false)
                 (Object_entries params)) as Hentries.
  { apply Forall_forall. intros entry Hin.
    apply Object_entries_elem_of in Hin.
    by apply (proj1 (Forall_forall _ _) Hnull). }
  assert (query_entries (Object_entries params) = []) as ->.
  { unfold query_entries.
    induction Hentries as [|entry entries Hentry _ IH]; [done|].
    rewrite (filter_cons _ entry), decide_False by congruence. exact IH. }
  destruct url. cbn. by rewrite app_nil_r.
Qed.

(** ** [mergeRequests] *)

Lemma mergeRequests_loop_defined (requests : list (option RequestInit))
    (mergedResult : RequestInit) (mergedHeaders : Headers) :
  mergeRequests_loop requests mergedResult mergedHeaders
  = mergeRequests_loop (Some <$> omap (λ request, request) requests) mergedResult mergedHeaders.
Proof.
  revert mergedResult mergedHeaders.
  induction requests as [|[request|] requests IH];
    intros mergedResult mergedHeaders; cbn; [done| |apply IH].
  destruct (Headers_new (headers request)); cbn; [apply IH|done].
Qed.

(** X2. The missing specifications play no part: merging a sequence is merging
    the specifications it has, in their order. *)
Theorem mergeRequests_skips_undefined (requests : list (option RequestInit)) :
  mergeRequests requests = mergeRequests (Some <$> omap (λ request, request) requests).
Proof. unfold mergeRequests. by rewrite mergeRequests_loop_defined. Qed.

(** Setting the entries of a [Headers] object on an empty one leaves, of
    each of its names, what the merge carries. *)
Lemma Headers_forEach_set_empty (hs : Headers) :
  well_formed hs →
  Headers_forEach hs (λ value key, Headers_set key value) ∅
  = map_imap (λ name values,
                Some [normalize
                        (if String.eqb name "set-cookie"
                         then default "" (last values)
                         else String.concat ", " values)]) hs.
Proof.
  intros Hhs. apply map_eq. intros key.
  rewrite Headers_forEach_set by done. rewrite lookup_empty.
  rewrite map_lookup_imap.
  destruct (hs !! key) as [values|] eqn:Hkey; [|done]. cbn.
  unfold carried. destruct (Hhs _ _ Hkey) as (-> & _). done.
Qed.

(** With one value for each name it copies the object. *)
Lemma Headers_forEach_set_copy (hs : Headers) :
  well_formed hs →
  single_valued hs →
  Headers_forEach hs (λ value key, Headers_set key value) ∅ = hs.
Proof.
  intros Hhs Hsingle. rewrite Headers_forEach_set_empty by done.
  apply map_eq. intros key. rewrite map_lookup_imap.
  destruct (hs !! key) as [values|] eqn:Hkey; [|done]. cbn.
  destruct (Hsingle _ _ Hkey) as [val ->].
  destruct (Hhs _ _ Hkey) as (_ & _ & Hnorm).
  apply Forall_cons in Hnorm as [Hval _].
  assert (∀ b : bool, (if b then default "" (last [val])
                       else String.concat ", " [val]) = val) as ->
    by (by intros []).
  by rewrite Hval.
Qed.

(** X3. Merging one specification gives its fields and, for each name of its
    headers as [new Headers] reads them, names in lower case, one value: of
    [set-cookie] the last of its values, of any other name its values joined
    by a comma and a space, without the whitespace at the ends. When each
    name has one value there, the headers are those of the specification as
    [new Headers] reads them. *)
Theorem mergeRequests_single (request : RequestInit) (hs : Headers) :
  headers_view request = Some hs →
  mergeRequests [Some request]
  = Normal (mkRequestInit
              (Present (InitHeaders
                 (map_imap (λ name values,
                              Some [normalize
                                      (if String.eqb name "set-cookie"
                                       then default "" (last values)
                                       else String.concat ", " values)])
                           hs)))
              (fields request))
  ∧ ((∀ name values, hs !! name = Some values → ∃ val, values = [val]) →
     mergeRequests [Some request]
     = Normal (mkRequestInit (Present (InitHeaders hs)) (fields request))).
Proof.
  intros Hview. pose proof (headers_view_well_formed _ _ Hview) as Hhs.
  unfold headers_view in Hview. unfold mergeRequests. cbn.
  destruct (Headers_new (headers request)) as [hs'|]; [|done].
  injection Hview as ->. cbn. rewrite (right_id_L ∅ (∪)). split.
  - by rewrite Headers_forEach_set_empty.
  - intros Hsingle. by rewrite Headers_forEach_set_copy.
Qed.

(** What [set] leaves is well formed, with one value for the name set. *)
Lemma well_formed_set (name val : string) (hs : Headers) :
  well_formed hs ∧ single_valued hs →
  well_formed (Headers_set name val hs)
  ∧ single_valued (Headers_set name val hs).
Proof.
  intros [Hhs Hsingle]. unfold Headers_set. split.
  - intros name' values. rewrite lookup_insert.
    case_decide as Hname; [|apply Hhs].
    intros [= <-]. subst name'. split; [apply lowercase_idemp|].
    split; [done|]. constructor; [apply normalize_idemp|constructor].
  - intros name' values. rewrite lookup_insert.
    case_decide as Hname; [|apply Hsingle].
    intros [= <-]. by eexists.
Qed.

Lemma Headers_forEach_set_well_formed (hs acc : Headers) :
  well_formed acc ∧ single_valued acc →
  well_formed (Headers_forEach hs (λ value key, Headers_set key value) acc)
  ∧ single_valued
      (Headers_forEach hs (λ value key, Headers_set key value) acc).
Proof.
  unfold Headers_forEach. generalize (Headers_entries hs). intros pairs.
  revert acc. induction pairs as [|[key val] pairs IH]; intros acc Hacc;
    [done|].
  cbn [fold_left]. apply IH. by apply well_formed_set.
Qed.

(** The merged headers are well formed and have one value for each name. *)
Lemma mergeRequests_loop_well_formed (requests : list (option RequestInit))
    (mergedResult mergedResult' : RequestInit)
    (mergedHeaders mergedHeaders' : Headers) :
  mergeRequests_loop requests mergedResult mergedHeaders
    = Normal (mergedResult', mergedHeaders') →
  well_formed mergedHeaders ∧ single_valued mergedHeaders →
  well_formed mergedHeaders' ∧ single_valued mergedHeaders'.
Proof.
  revert mergedResult mergedHeaders.
  induction requests as [|[request|] requests IH];
    intros mergedResult mergedHeaders Hloop Hmerged.
  - by injection Hloop as _ <-.
  - cbn [mergeRequests_loop] in Hloop.
    destruct (Headers_new (headers request)) as [hs|]; [|done].
    eapply IH; [exact Hloop|]. by apply Headers_forEach_set_well_formed.
  - by eapply IH.
Qed.

(** X4. What [mergeRequests] returns always has a [Headers] object as its
    [headers], also when no specification gave any; the names in it are in
    lower case whatever case the specifications used, and each has one
    value. *)
Theorem mergeRequests_headers_object (requests : list (option RequestInit))
    (merged : RequestInit) :
  mergeRequests requests = Normal merged →
  ∃ mergedHeaders,
    headers merged = Present (InitHeaders mergedHeaders) ∧
    (∀ name val, mergedHeaders !! name = Some val → lowercase name = name) ∧
    (∀ name values, mergedHeaders !! name = Some values →
                    ∃ val, values = [val] ∧ normalize val = val).
Proof.
  unfold mergeRequests. intros Hmerged.
  destruct (mergeRequests_loop _ _ _) as [[mergedResult mergedHeaders]|e]
    eqn:Hloop; [|done].
  injection Hmerged as <-. exists mergedHeaders. split; [done|].
  destruct (mergeRequests_loop_well_formed _ _ _ _ _ Hloop)
    as [Hhs Hsingle]; [split; [apply well_formed_empty|]|].
  { intros name values Hname. by rewrite lookup_empty in Hname. }
  split.
  - intros name val Hname. by destruct (Hhs _ _ Hname).
  - intros name values Hname. destruct (Hsingle _ _ Hname) as [val ->].
    exists val. split; [done|].
    destruct (Hhs _ _ Hname) as (_ & _ & Hnorm).
    by apply Forall_cons in Hnorm as [? _].
Qed.

Lemma mergeRequests_loop_throw_inv (requests : list (option RequestInit))
    (mergedResult : RequestInit) (mergedHeaders : Headers) (e : js_error) :
  mergeRequests_loop requests mergedResult mergedHeaders = Throw e →
  e = TypeError
  ∧ ∃ request, Some request ∈ requests ∧ headers_view request = None.
Proof.
  revert mergedResult mergedHeaders.
  induction requests as [|[request|] requests IH];
    intros mergedResult mergedHeaders Hloop; [done| |].
  - cbn [mergeRequests_loop] in Hloop. unfold headers_view.
    destruct (Headers_new (headers request)) as [hs|e'] eqn:Hnew.
    + destruct (IH _ _ Hloop) as (-> & request' & Hin & Hview).
      split; [done|]. exists request'. split; [by right|done].
    + cbn in Hloop. injection Hloop as ->. split.
      * unfold Headers_new in Hnew.
        destruct (headers request) as [| |[entries|hs]]; try done;
          by apply Headers_fill_throws in Hnew.
      * exists request. split; [by left|]. unfold headers_view. by rewrite Hnew.
  - destruct (IH _ _ Hloop) as (-> & request' & Hin & Hview).
    split; [done|]. exists request'. split; [by right|done].
Qed.

(** X5. [mergeRequests] throws exactly when [new Headers] rejects the headers
    of one of the specifications, and what it throws is that [TypeError]. *)
Theorem mergeRequests_throws_iff (requests : list (option RequestInit)) :
  ((∃ e, mergeRequests requests = Throw e)
   ↔ ∃ request, Some request ∈ requests ∧ headers_view request = None)
  ∧ (∀ e, mergeRequests requests = Throw e → e = TypeError).
Proof.
  assert (∀ e, mergeRequests requests = Throw e →
               e = TypeError
               ∧ ∃ request, Some request ∈ requests
                            ∧ headers_view request = None) as Hinv.
  { intros e. unfold mergeRequests.
    destruct (mergeRequests_loop _ _ _) as [[mergedResult mergedHeaders]|e']
      eqn:Hloop; [done|].
    cbn. intros [= ->]. by eapply mergeRequests_loop_throw_inv. }
  split; [split|].
  - intros [e He]. by destruct (Hinv e He).
  - intros (request & Hin & Hview). exists TypeError.
    by eapply mergeRequests_throws.
  - intros e He. by destruct (Hinv e He).
Qed.

(** Filling from the pairs of distinct lower-case names with one normalised
    value each, none of them present yet, inserts them. *)
Lemma Headers_fill_fresh (entries : list (string * list string))
    (acc hs : Headers) :
  NoDup entries.*1 →
  (∀ name values, (name, values) ∈ entries →
                  lowercase name = name ∧ acc !! name = None
                  ∧ ∃ val, values = [val] ∧ normalize val = val) →
  Headers_fill (entries ≫= entry_pairs) acc = Normal hs →
  hs = list_to_map entries ∪ acc.
Proof.
  revert acc. induction entries as [|[name values] entries IH];
    intros acc Hnodup Hnames Hfill.
  - cbn in *. injection Hfill as <-. by rewrite (left_id_L ∅ (∪)).
  - apply NoDup_cons in Hnodup as [Hnotin Hnodup].
    destruct (Hnames name values) as (Hlower & Hfresh & val & -> & Hval);
      [by left|].
    assert (entry_pairs (name, [val]) = [(name, val)]) as Hpairs.
    { unfold entry_pairs. cbn. by destruct (String.eqb name "set-cookie"). }
    cbn [mbind list_bind] in Hfill. rewrite Hpairs in Hfill.
    cbn [app Headers_fill] in Hfill.
    destruct (header_valid name _); [|done].
    unfold Headers_append in Hfill. rewrite Hlower, Hfresh, Hval in Hfill.
    cbn [default app] in Hfill.
    rewrite (IH (<[name:=[val]]> acc) Hnodup); [| |exact Hfill].
    + cbn. rewrite <- insert_union_l. symmetry. apply insert_union_r.
      by apply not_elem_of_list_to_map_1.
    + intros name' values' Hin.
      destruct (Hnames name' values') as (Hlower' & Hfresh' & Hsingle');
        [by right|].
      split; [done|]. split; [|done]. rewrite lookup_insert_ne; [done|].
      intros ->. apply Hnotin. apply list_elem_of_fmap.
      by exists (name', values').
Qed.

(** Reading a [Headers] object with one value for each name back through
    [new Headers] gives its copy. *)
Lemma Headers_new_object (mh hs : Headers) :
  well_formed mh →
  single_valued mh →
  Headers_new (Present (InitHeaders mh)) = Normal hs →
  hs = mh.
Proof.
  intros Hmh Hsingle Hnew. cbn in Hnew. unfold Headers_entries in Hnew.
  rewrite (Headers_fill_fresh _ ∅ hs (sorted_entries_NoDup mh));
    [| |exact Hnew].
  - by rewrite (right_id_L ∅ (∪)), sorted_entries_to_map.
  - intros name values Hin%sorted_entries_elem_of.
    destruct (Hmh _ _ Hin) as (Hlower & _ & Hnorm).
    split; [done|]. split; [apply lookup_empty|].
    destruct (Hsingle _ _ Hin) as [val ->]. exists val. split; [done|].
    by apply Forall_cons in Hnorm as [? _].
Qed.

Lemma mergeRequests_loop_app (first rest : list (option RequestInit))
    (mergedResult : RequestInit) (mergedHeaders : Headers) :
  mergeRequests_loop (first ++ rest) mergedResult mergedHeaders
  = '(mergedResult', mergedHeaders')
      ← mergeRequests_loop first mergedResult mergedHeaders;
    mergeRequests_loop rest mergedResult' mergedHeaders'.
Proof.
  revert mergedResult mergedHeaders.
  induction first as [|[request|] first IH];
    intros mergedResult mergedHeaders; cbn; [done| |apply IH].
  destruct (Headers_new (headers request)); cbn; [apply IH|done].
Qed.

(** The loop reads its accumulated specification only through its fields. *)
Lemma mergeRequests_loop_fields_only (requests : list (option RequestInit))
    (a b : RequestInit) (mergedHeaders : Headers) :
  fields a = fields b →
  ('(mergedResult, mergedHeaders')
     ← mergeRequests_loop requests a mergedHeaders;
   mret (mkRequestInit (Present (InitHeaders mergedHeaders'))
                       (fields mergedResult)))
  = ('(mergedResult, mergedHeaders')
       ← mergeRequests_loop requests b mergedHeaders;
     mret (mkRequestInit (Present (InitHeaders mergedHeaders'))
                         (fields mergedResult))).
Proof.
  revert a b mergedHeaders.
  induction requests as [|[request|] requests IH];
    intros a b mergedHeaders Hfields; cbn.
  - by rewrite Hfields.
  - destruct (Headers_new (headers request)); cbn; [|done].
    apply IH. cbn. by rewrite Hfields.
  - by apply IH.
Qed.

(** X6. Merging in two stages is merging at once: the result of a merge, put
    in front of further specifications, merges with them to what all the
    specifications merge to, provided [new Headers] accepts the merged
    headers when it reads them again. *)
Theorem mergeRequests_two_stage (first rest : list (option RequestInit))
    (merged : RequestInit) :
  mergeRequests first = Normal merged →
  is_Some (headers_view merged) →
  mergeRequests (Some merged :: rest) = mergeRequests (first ++ rest).
Proof.
  unfold mergeRequests at 1. intros Hfirst [hs Hview].
  destruct (mergeRequests_loop first _ _) as [[mergedResult mergedHeaders]|e]
    eqn:Hloop; [|done].
  injection Hfirst as <-.
  destruct (mergeRequests_loop_well_formed _ _ _ _ _ Hloop)
    as [Hmerged Hsingle]; [split; [apply well_formed_empty|]|].
  { intros name values Hname. by rewrite lookup_empty in Hname. }
  unfold headers_view in Hview. cbn [headers] in Hview.
  destruct (Headers_new (Present (InitHeaders mergedHeaders))) as [hs'|]
    eqn:Hnew; [|done].
  pose proof (Headers_new_object _ _ Hmerged Hsingle Hnew) as ->.
  unfold mergeRequests. rewrite mergeRequests_loop_app, Hloop.
  cbn [mergeRequests_loop headers]. rewrite Hnew.
  cbn [mbind completion_bind].
  rewrite Headers_forEach_set_copy by done.
  apply mergeRequests_loop_fields_only. cbn.
  by rewrite (right_id_L ∅ (∪)).
Qed.

(** ** The timeout-guarded send *)

(** X7. A result with a response tells what happened: [ok: true] comes with a
    status in 200..299, [NOT_OK] with a status outside; in both the request
    went out, the response is the one the network gave, and the data is its
    body parsed. A transport error is what [handleError] makes of an
    exception of the [try] block. *)
Theorem fetchWithTimeout_result_inv (this : Infinibrowser) (url : URL)
    (init : RequestInit) (σ σ' : runtime) (r : FetchResponse) :
  fetchWithTimeout this url init σ = (Normal r, σ') →
  match r with
  | Success data response =>
      ∃ sent body,
        built_request this url init (controllers σ) = Normal sent ∧
        EvFetch sent ∈ trace σ' ∧
        network sent = Fulfilled response ∧
        (200 ≤ status response ≤ 299)%Z ∧
        text response = Fulfilled body ∧
        JSON_parse body = Some data
  | NotOk data response =>
      ∃ sent body,
        built_request this url init (controllers σ) = Normal sent ∧
        EvFetch sent ∈ trace σ' ∧
        network sent = Fulfilled response ∧
        ¬ (200 ≤ status response ≤ 299)%Z ∧
        text response = Fulfilled body ∧
        JSON_parse body = Some data
  | Failed failure =>
      ∃ e σ1,
        fetchWithTimeout_try this url init (controllers σ) (new_timer σ)
          (at_try this σ) = (Throw e, σ1) ∧
        failure = handleError e
  end.
Proof.
  rewrite fetchWithTimeout_run.
  destruct (fetchWithTimeout_try _ _ _ _ _ _) as [[r'|e] σ1] eqn:Htry.
  2:{ intros [= <- <-]. by eexists _, _. }
  intros [= <- <-]. rewrite fetchWithTimeout_try_run in Htry.
  destruct (built_request _ _ _ _) as [sent|e]; [|done]. cbn zeta in Htry.
  destruct (network sent) as [response|e|] eqn:Hnetwork; [|done..].
  destruct (text response) as [body|e|] eqn:Htext; [|done..].
  destruct (JSON_parse body) as [data|] eqn:Hparse; [|done].
  injection Htry as <- <-.
  assert (EvFetch sent
          ∈ trace (cleared (new_timer σ) (logged (EvFetch sent) (at_try this σ))))
    as Hsent.
  { cbn. rewrite !elem_of_app, !list_elem_of_singleton. by left; right. }
  unfold Response_ok. case_bool_decide as Hstatus;
    by exists sent, body.
Qed.

(** X8. The code of a transport error tells the class of the error it carries:
    [SYNTAX_ERROR] goes with a [SyntaxError] and with nothing else, [TIMEOUT]
    with the abort error and with nothing else. *)
Theorem fetchWithTimeout_code_tells_error (this : Infinibrowser) (url : URL)
    (init : RequestInit) (σ σ' : runtime) (failure : FetchResponseError) :
  fetchWithTimeout this url init σ = (Normal (Failed failure), σ') →
  (transport_error_code failure = SYNTAX_ERROR ↔ error failure = SyntaxError)
  ∧ (transport_error_code failure = TIMEOUT
     ↔ error failure = DOMException "AbortError")
  ∧ (transport_error_code failure = UNKNOWN_ERROR
     ↔ error failure ≠ SyntaxError
       ∧ error failure ≠ DOMException "AbortError").
Proof.
  rewrite fetchWithTimeout_run.
  destruct (fetchWithTimeout_try _ _ _ _ _ _) as [[r'|e] σ1] eqn:Htry.
  { intros [= -> <-]. rewrite fetchWithTimeout_try_run in Htry.
    destruct (built_request _ _ _ _) as [sent|e]; [|done]. cbn zeta in Htry.
    destruct (network sent) as [response|e|]; [|done..].
    destruct (text response) as [body|e|]; [|done..].
    destruct (JSON_parse body); [|done].
    by destruct (Response_ok response). }
  intros [= <- <-].
  destruct e as [|name| | |]; cbn.
  2: destruct (String.eqb_spec name "AbortError") as [->|Hname]; cbn.
  all: repeat split; try done; try congruence.
  all: try (by intros [? ?]).
  all: intros _; split; congruence.
Qed.

(** X9. A call sends at most one request and never a second one: when the
    request cannot be built nothing leaves and the call's events are the
    setting and the clearing of its timer; otherwise they are the setting of
    the timer, that request, the firing of the timer when it fired while the
    response or its body was awaited, and the clearing. *)
Theorem fetchWithTimeout_sends_once (this : Infinibrowser) (url : URL)
    (init : RequestInit) (σ : runtime) :
  ∃ r σ',
    fetchWithTimeout this url init σ = (Normal r, σ') ∧
    match built_request this url init (controllers σ) with
    | Throw e =>
        r = Failed (handleError e) ∧
        trace σ' = (trace σ
                    ++ [EvSetTimeout (new_timer σ) (controllers σ)
                                     (timeout (config this));
                        EvClearTimeout (new_timer σ)])%list
    | Normal sent =>
        ∃ fired,
          trace σ' = (trace σ
                      ++ [EvSetTimeout (new_timer σ) (controllers σ)
                                       (timeout (config this));
                          EvFetch sent]
                      ++ fired
                      ++ [EvClearTimeout (new_timer σ)])%list ∧
          ((fired = [] ∧ network sent ≠ TimedOut
                       ∧ ∀ response, network sent = Fulfilled response →
                                     text response ≠ TimedOut)
           ∨ (fired = [EvTimerFired (new_timer σ)]
              ∧ (network sent = TimedOut
                 ∨ ∃ response, network sent = Fulfilled response
                               ∧ text response = TimedOut)))
    end.
Proof.
  pose proof (new_timer_fresh σ) as Hfresh.
  rewrite fetchWithTimeout_run, fetchWithTimeout_try_run.
  destruct (built_request _ _ _ _) as [sent|e].
  2:{ eexists _, _. split; [done|]. split; [done|].
      cbn. by rewrite <- !app_assoc. }
  cbn zeta.
  assert (trace (cleared (new_timer σ) (logged (EvFetch sent) (at_try this σ)))
          = (trace σ
             ++ [EvSetTimeout (new_timer σ) (controllers σ)
                              (timeout (config this)); EvFetch sent]
             ++ [] ++ [EvClearTimeout (new_timer σ)])%list) as Hquiet.
  { cbn. by rewrite <- !app_assoc. }
  assert (trace (cleared (new_timer σ)
                   (fire (new_timer σ) (logged (EvFetch sent) (at_try this σ))))
          = (trace σ
             ++ [EvSetTimeout (new_timer σ) (controllers σ)
                              (timeout (config this)); EvFetch sent]
             ++ [EvTimerFired (new_timer σ)]
             ++ [EvClearTimeout (new_timer σ)])%list) as Hfired.
  { unfold cleared, fire, logged, at_try. cbn. rewrite lookup_insert_eq. cbn.
    by rewrite <- !app_assoc. }
  destruct (network sent) as [response|e|] eqn:Hnetwork.
  - destruct (text response) as [body|e|] eqn:Htext.
    + destruct (JSON_parse body);
        (eexists _, _; split; [done|]; exists []; split; [exact Hquiet|];
         left; split; [done|]; split; [done|];
         intros response' [= <-]; congruence).
    + eexists _, _. split; [done|]. exists []. split; [exact Hquiet|].
      left. split; [done|]. split; [done|].
      intros response' [= <-]. congruence.
    + eexists _, _. split; [done|]. exists [EvTimerFired (new_timer σ)].
      split; [exact Hfired|]. right. split; [done|]. right. by exists response.
  - eexists _, _. split; [done|]. exists []. split; [exact Hquiet|].
    left. split; [done|]. split; [done|]. by intros response' [=].
  - eexists _, _. split; [done|]. exists [EvTimerFired (new_timer σ)].
    split; [exact Hfired|]. right. split; [done|]. by left.
Qed.

(** X10. A call makes one controller, its own, and aborts no other: the aborted
    signals after the call are those of before, with the call's own added
    only when the call returns [TIMEOUT]. *)
Theorem fetchWithTimeout_aborts_own_signal (this : Infinibrowser) (url : URL)
    (init : RequestInit) (σ : runtime) :
  ∃ r σ',
    fetchWithTimeout this url init σ = (Normal r, σ') ∧
    controllers σ' = S (controllers σ) ∧
    (aborted σ' = aborted σ
     ∨ (aborted σ' = {[controllers σ]} ∪ aborted σ
        ∧ r = Failed (mkFetchResponseError TIMEOUT
                        (DOMException "AbortError")))).
Proof.
  rewrite fetchWithTimeout_run, fetchWithTimeout_try_run.
  assert (∀ ev, aborted (cleared (new_timer σ)
                           (fire (new_timer σ) (logged ev (at_try this σ))))
                = {[controllers σ]} ∪ aborted σ) as Hfired.
  { intros ev. unfold cleared, fire, logged, at_try. cbn.
    by rewrite lookup_insert_eq. }
  destruct (built_request _ _ _ _) as [sent|e];
    [|eexists _, _; split; [done|]; split; [done|]; by left].
  cbn zeta.
  destruct (network sent) as [response|e|].
  - destruct (text response) as [body|e|].
    + destruct (JSON_parse body);
        (eexists _, _; split; [done|]; split; [done|]; by left).
    + eexists _, _. split; [done|]. split; [done|]. by left.
    + eexists _, _. split; [done|]. split.
      * unfold cleared, fire, logged, at_try. cbn.
        by rewrite lookup_insert_eq.
      * right. split; [apply Hfired|done].
  - eexists _, _. split; [done|]. split; [done|]. by left.
  - eexists _, _. split; [done|]. split.
    + unfold cleared, fire, logged, at_try. cbn. by rewrite lookup_insert_eq.
    + right. split; [apply Hfired|done].
Qed.

(** ** The request of a call *)

Lemma mergeRequests_loop_valid (requests : list (option RequestInit))
    (mergedResult mergedResult' : RequestInit)
    (mergedHeaders mergedHeaders' : Headers) :
  mergeRequests_loop requests mergedResult mergedHeaders
    = Normal (mergedResult', mergedHeaders') →
  ∀ request, Some request ∈ requests → is_Some (headers_view request).
Proof.
  intros Hloop request Hin.
  destruct (headers_view request) as [hs|] eqn:Hview; [by eexists|].
  by rewrite (mergeRequests_loop_throws _ _ _ _ Hin Hview) in Hloop.
Qed.

(** The headers one pair gives. *)
Lemma Headers_fill_one (name val : string) :
  Headers_fill [(name, val)] ∅
  = if header_valid name (normalize val)
    then Normal {[lowercase name := [normalize val]]}
    else Throw TypeError.
Proof.
  cbn. destruct (header_valid _ _); [|done].
  unfold Headers_append. rewrite lookup_empty. cbn. by rewrite insert_empty.
Qed.

(** What a merge carries over of the headers one valid pair gives. *)
Lemma carried_header_one (name val key : string)
    (others : gmap string init_value) :
  is_Some (headers_view
             (mkRequestInit (Present (InitEntries [(name, val)])) others)) →
  carried_header key
    (mkRequestInit (Present (InitEntries [(name, val)])) others)
  = if decide (lowercase key = lowercase name)
    then Some (normalize val)
    else None.
Proof.
  unfold carried_header, header_values, headers_view.
  cbn [headers Headers_new]. rewrite Headers_fill_one.
  destruct (header_valid _ _); [|by intros [? ?]]. intros _. cbn.
  case_decide as Hkey.
  - rewrite Hkey, lookup_singleton_eq. cbn.
    by rewrite carried_single, normalize_idemp.
  - by rewrite lookup_singleton_ne.
Qed.

(** The headers of the request a call builds: for each name the value of
    the forced options, else what the merge carries over of the call's
    options, else of the client's [request] option. *)
Lemma built_request_headers (this : Infinibrowser) (url : URL)
    (init : RequestInit) (controller : nat) (built : Request) :
  built_request this url init controller = Normal built →
  ∃ mergedHeaders,
    headers (request_init built) = Present (InitHeaders mergedHeaders) ∧
    is_Some (headers_view (forced_init controller)) ∧
    is_Some (headers_view init) ∧
    ∀ name, Headers_get name mergedHeaders
            = if decide (lowercase name = "accept-encoding")
              then Some "gzip, deflate, identity"
              else match carried_header name init with
                   | Some x => Some x
                   | None => base ← optional_get (request (config this));
                             carried_header name base
                   end.
Proof.
  unfold built_request, mergeRequests. intros Hbuilt.
  destruct (mergeRequests_loop _ _ _) as [[mergedResult mergedHeaders]|e]
    eqn:Hloop; [|done].
  cbn in Hbuilt. unfold Request_new in Hbuilt.
  destruct (Request_invalid _ _); [done|]. injection Hbuilt as <-.
  exists mergedHeaders. split; [done|].
  pose proof (mergeRequests_loop_valid _ _ _ _ _ Hloop) as Hvalid.
  assert (is_Some (headers_view (forced_init controller))) as Hforced.
  { apply Hvalid. unfold forced_init. rewrite !elem_of_cons.
    by right; right; left. }
  assert (is_Some (headers_view init)) as Hown.
  { apply Hvalid. rewrite !elem_of_cons. by right; left. }
  split; [done|]. split; [done|]. intros name.
  destruct (mergeRequests_loop_spec _ empty_init ∅ Hvalid)
    as (mergedResult' & mergedHeaders' & Hloop' & _ & Hheaders).
  rewrite Hloop in Hloop'. injection Hloop' as <- <-.
  rewrite (mergeRequests_loop_get _ _ name Hheaders).
  cbn [last_defined mbind option_bind].
  fold (forced_init controller). unfold forced_init at 1.
  rewrite carried_header_one by exact Hforced.
  change (lowercase "Accept-Encoding") with "accept-encoding".
  case_decide; [done|].
  destruct (carried_header name init); [done|].
  by destruct (optional_get _).
Qed.

(** X11. Whatever the client's [request] option and the call's options say, the
    request that is built goes to the URL given, carries the signal of the
    call's own controller (a signal given by the client is replaced) and has
    [Accept-Encoding: gzip, deflate, identity]. *)
Theorem request_forced_options (this : Infinibrowser) (url : URL)
    (init : RequestInit) (controller : nat) (built : Request) :
  built_request this url init controller = Normal built →
  request_url built = url ∧
  fields (request_init built) !! "signal" = Some (ISignal controller) ∧
  ∃ mergedHeaders,
    headers (request_init built) = Present (InitHeaders mergedHeaders) ∧
    Headers_get "Accept-Encoding" mergedHeaders
      = Some "gzip, deflate, identity".
Proof.
  intros Hbuilt.
  destruct (built_request_fields _ _ _ _ _ Hbuilt) as [Hurl Hfields].
  destruct (built_request_headers _ _ _ _ _ Hbuilt)
    as (mergedHeaders & Hheaders & _ & _ & Hlookup).
  split; [done|]. split.
  - by rewrite Hfields.
  - exists mergedHeaders. split; [done|]. by rewrite Hlookup.
Qed.

(** X12. For everything else the call's options come before the client's
    [request] option, and what only the client gives reaches the request: a
    field other than [signal] has the value of the call's options when they
    give one and of the client's option otherwise; a header other than
    [Accept-Encoding] has what the merge carries over of the call's options
    when they give the header, and of the client's option otherwise, that
    is, of [Set-Cookie] the last of its values there and of any other header
    its values there joined by a comma and a space, without the whitespace
    at the ends; so a header given one value has that value. *)
Theorem request_precedence (this : Infinibrowser) (url : URL)
    (init : RequestInit) (controller : nat) (built : Request) :
  built_request this url init controller = Normal built →
  (∀ k, k ≠ "signal" →
        fields (request_init built) !! k
        = match fields init !! k with
          | Some x => Some x
          | None => base ← optional_get (request (config this));
                    fields base !! k
          end) ∧
  ∃ mergedHeaders,
    headers (request_init built) = Present (InitHeaders mergedHeaders) ∧
    (∀ name, lowercase name ≠ "accept-encoding" →
             Headers_get name mergedHeaders
             = match header_values name init with
               | Some values =>
                   Some (normalize
                           (if String.eqb (lowercase name) "set-cookie"
                            then default "" (last values)
                            else String.concat ", " values))
               | None =>
                   base ← optional_get (request (config this));
                   values ← header_values name base;
                   Some (normalize
                           (if String.eqb (lowercase name) "set-cookie"
                            then default "" (last values)
                            else String.concat ", " values))
               end) ∧
    (∀ name val, lowercase name ≠ "accept-encoding" →
                 header_values name init = Some [val] →
                 Headers_get name mergedHeaders = Some val) ∧
    (∀ name base val,
       lowercase name ≠ "accept-encoding" →
       header_values name init = None →
       request (config this) = Present base →
       header_values name base = Some [val] →
       Headers_get name mergedHeaders = Some val).
Proof.
  intros Hbuilt.
  destruct (built_request_fields _ _ _ _ _ Hbuilt) as [_ Hfields].
  destruct (built_request_headers _ _ _ _ _ Hbuilt)
    as (mergedHeaders & Hheaders & _ & _ & Hlookup).
  assert (∀ name request val,
            header_values name request = Some [val] → normalize val = val)
    as Hnorm.
  { intros name request val. unfold header_values.
    destruct (headers_view request) as [hs|] eqn:Hview; [|done]. cbn.
    intros Hname.
    destruct (headers_view_well_formed _ _ Hview _ _ Hname) as (_ & _ & Hall).
    by apply Forall_cons in Hall as [? _]. }
  split.
  - intros k Hk. rewrite Hfields. by rewrite lookup_singleton_ne.
  - exists mergedHeaders. split; [done|]. split; [|split].
    + intros name Hname. rewrite Hlookup, decide_False by done.
      unfold carried_header. destruct (header_values name init); [done|].
      cbn. destruct (optional_get _) as [base|]; [|done]. cbn.
      by destruct (header_values name base).
    + intros name val Hname Hvalues. rewrite Hlookup, decide_False by done.
      unfold carried_header. rewrite Hvalues. cbn.
      by rewrite carried_single, (Hnorm _ _ _ Hvalues).
    + intros name base val Hname Hnone Hbase Hvalues.
      rewrite Hlookup, decide_False by done.
      unfold carried_header. rewrite Hnone, Hbase. cbn. rewrite Hvalues. cbn.
      by rewrite carried_single, (Hnorm _ _ _ Hvalues).
Qed.

(** ** The primitives and the endpoints *)

Lemma get_run (this : Infinibrowser) (path : string) (params : option Params)
    (url : URL) (σ : runtime) :
  buildUrl (API_URL (config this)) path params = Normal url →
  get this path params σ = fetchWithTimeout this url get_options σ.
Proof. intros Hurl. unfold get. by rewrite Hurl. Qed.

Lemma post_run (this : Infinibrowser) (path : string) (params : option Params)
    (payload : option value) (url : URL) (body : string) (σ : runtime) :
  buildUrl (API_URL (config this)) path params = Normal url →
  serialised payload = Some body →
  post this path params payload σ
  = fetchWithTimeout this url (post_options body) σ.
Proof.
  intros Hurl Hbody. unfold post, stringify.
  by rewrite Hurl, stringify_serialised, Hbody.
Qed.

(** A request that is built is sent, and the call returns. *)
Lemma fetchWithTimeout_sent (this : Infinibrowser) (url : URL)
    (init : RequestInit) (σ : runtime) (built : Request) :
  built_request this url init (controllers σ) = Normal built →
  ∃ r σ', fetchWithTimeout this url init σ = (Normal r, σ')
          ∧ EvFetch built ∈ trace σ'.
Proof.
  intros Hbuilt.
  rewrite fetchWithTimeout_run, fetchWithTimeout_try_run, Hbuilt. cbn zeta.
  assert (EvFetch built
          ∈ trace (cleared (new_timer σ) (logged (EvFetch built) (at_try this σ))))
    as Hquiet.
  { cbn. rewrite !elem_of_app, !list_elem_of_singleton. by left; right. }
  assert (EvFetch built
          ∈ trace (cleared (new_timer σ)
                     (fire (new_timer σ) (logged (EvFetch built) (at_try this σ)))))
    as Hfired.
  { unfold cleared, fire, logged, at_try. cbn. rewrite lookup_insert_eq. cbn.
    rewrite !elem_of_app, !list_elem_of_singleton. by left; left; right. }
  destruct (network built) as [response|e|]; [|by eexists _, _..].
  destruct (text response) as [body|e|]; [|by eexists _, _..].
  destruct (JSON_parse body); by eexists _, _.
Qed.

(** X13. The GET primitive, and with it [getItem], [getRecipes], [getUses],
    [getLineage] and [getCustomLineage]: when the URL and the request are
    built, the call returns after sending a request to the URL [buildUrl]
    gave, with method [GET] and [Accept: application/json], whatever method
    or [Accept] header the client's [request] option has; the primitive gives
    the request no body of its own. *)
Theorem get_request (this : Infinibrowser) (path : string)
    (params : option Params) (σ : runtime) (url : URL) (built : Request) :
  buildUrl (API_URL (config this)) path params = Normal url →
  built_request this url get_options (controllers σ) = Normal built →
  ∃ r σ' mergedHeaders,
    get this path params σ = (Normal r, σ') ∧
    EvFetch built ∈ trace σ' ∧
    request_url built = url ∧
    fields (request_init built) !! "method" = Some (IString "GET") ∧
    fields (request_init built) !! "body"
      = (base ← optional_get (request (config this)); fields base !! "body") ∧
    headers (request_init built) = Present (InitHeaders mergedHeaders) ∧
    Headers_get "Accept" mergedHeaders = Some "application/json".
Proof.
  intros Hurl Hbuilt. rewrite (get_run _ _ _ _ _ Hurl).
  destruct (fetchWithTimeout_sent _ _ _ _ _ Hbuilt) as (r & σ' & Hrun & Hsent).
  destruct (built_request_fields _ _ _ _ _ Hbuilt) as [Hrequest_url Hfields].
  destruct (built_request_headers _ _ _ _ _ Hbuilt)
    as (mergedHeaders & Hheaders & _ & Hown & Hlookup).
  exists r, σ', mergedHeaders.
  split; [done|]. split; [done|]. split; [done|].
  split; [by rewrite Hfields|]. split; [by rewrite Hfields|].
  split; [done|]. rewrite Hlookup. unfold get_options in *.
  by rewrite carried_header_one.
Qed.

(** X14. The POST primitive, and with it [optimizeLineage] and [shareLineage]:
    when the URL is built, the payload (the empty object when none is given)
    has a JSON text and the request is built, the call returns after sending
    a request to that URL with method [POST], [Content-Type: application/json]
    and as body that text, whatever the client's [request] option has
    there. *)
Theorem post_request (this : Infinibrowser) (path : string)
    (params : option Params) (payload : option value) (σ : runtime)
    (url : URL) (body : string) (built : Request) :
  buildUrl (API_URL (config this)) path params = Normal url →
  JSON_stringify match payload with
                 | None | Some VUndefined | Some VNull => VObject []
                 | Some payload => payload
                 end = Some body →
  built_request this url (post_options body) (controllers σ) = Normal built →
  ∃ r σ' mergedHeaders,
    post this path params payload σ = (Normal r, σ') ∧
    EvFetch built ∈ trace σ' ∧
    request_url built = url ∧
    fields (request_init built) !! "method" = Some (IString "POST") ∧
    fields (request_init built) !! "body" = Some (IString body) ∧
    headers (request_init built) = Present (InitHeaders mergedHeaders) ∧
    Headers_get "Content-Type" mergedHeaders = Some "application/json".
Proof.
  intros Hurl Hbody Hbuilt.
  rewrite (post_run _ _ _ payload _ body _ Hurl)
    by (by destruct payload as [[]|]).
  destruct (fetchWithTimeout_sent _ _ _ _ _ Hbuilt) as (r & σ' & Hrun & Hsent).
  destruct (built_request_fields _ _ _ _ _ Hbuilt) as [Hrequest_url Hfields].
  destruct (built_request_headers _ _ _ _ _ Hbuilt)
    as (mergedHeaders & Hheaders & _ & Hown & Hlookup).
  exists r, σ', mergedHeaders.
  split; [done|]. split; [done|]. split; [done|].
  split; [by rewrite Hfields|].
  split; [by rewrite Hfields|].
  split; [done|]. rewrite Hlookup. unfold post_options in *.
  by rewrite carried_header_one.
Qed.

(** X15. What the primitives throw. The GET primitive throws exactly when the
    base URL followed by the path is no URL. The POST primitive throws
    exactly then or when the payload (the empty object when none is given)
    has no JSON text, as with a [bigint] in it: the body is serialised
    before the [try]. What is thrown is a [TypeError] in each case, and
    nothing has run by then. *)
Theorem primitives_throw_iff (this : Infinibrowser) (path : string)
    (params : option Params) (payload : option value) (σ : runtime) :
  ((∃ e σ', get this path params σ = (Throw e, σ'))
   ↔ URL_parse (API_URL (config this) +:+ path) = None) ∧
  ((∃ e σ', post this path params payload σ = (Throw e, σ'))
   ↔ URL_parse (API_URL (config this) +:+ path) = None
     ∨ JSON_stringify match payload with
                      | None | Some VUndefined | Some VNull => VObject []
                      | Some payload => payload
                      end = None) ∧
  (∀ e σ', get this path params σ = (Throw e, σ')
           ∨ post this path params payload σ = (Throw e, σ') →
           e = TypeError ∧ σ' = σ).
Proof.
  assert (JSON_stringify match payload with
                         | None | Some VUndefined | Some VNull => VObject []
                         | Some payload => payload
                         end = serialised payload) as ->
    by (by destruct payload as [[]|]).
  destruct (URL_parse (API_URL (config this) +:+ path)) as [url|] eqn:Hurl.
  - destruct (get_returns this path params σ url Hurl) as (r & σ1 & Hget).
    rewrite Hget.
    destruct (serialised payload) as [body|] eqn:Hbody.
    + destruct (post_returns this path params payload σ url body Hurl Hbody)
        as (r' & σ2 & Hpost).
      rewrite Hpost. split; [|split].
      * split; [by intros (e & σ' & ?)|done].
      * split; [by intros (e & σ' & ?)|by intros [?|?]].
      * by intros e σ' [?|?].
    + rewrite (post_throws this path params payload σ url Hurl Hbody).
      split; [|split].
      * split; [by intros (e & σ' & ?)|done].
      * split; [by right|]. intros _. by eexists _, _.
      * by intros e σ' [?|[= <- <-]].
  - assert (get this path params σ = (Throw TypeError, σ)) as Hget.
    { unfold get, buildUrl, URL_new. by rewrite Hurl. }
    assert (post this path params payload σ = (Throw TypeError, σ)) as Hpost.
    { unfold post, buildUrl, URL_new. by rewrite Hurl. }
    rewrite Hget, Hpost. split; [|split].
    + split; [done|]. intros _. by eexists _, _.
    + split; [by left|]. intros _. by eexists _, _.
    + by intros e σ' [[= <- <-]|[= <- <-]].
Qed.

(** X16. [shareLineage] throws in three cases and no other: on the empty
    sequence, with its own error, checked first; on a base URL that with the
    path is no URL; and on a lineage whose payload has no JSON text, as with
    a [bigint] in a step. The last two throw a [TypeError]. In all three
    nothing has run by then. *)
Theorem shareLineage_throws_iff (this : Infinibrowser)
    (steps : ShareLineageType) (σ : runtime) :
  ((∃ e σ', shareLineage this steps σ = (Throw e, σ'))
   ↔ steps = []
     ∨ URL_parse (API_URL (config this) +:+ "/analytics/share") = None
     ∨ ∃ lastStep,
         last steps = Some lastStep ∧
         JSON_stringify
           (VObject [ ("id", VString (id lastStep.2));
                      ("emoji", VString (emoji lastStep.2));
                      ("steps", VArray (Step_value <$> steps)) ]) = None) ∧
  (∀ e σ', shareLineage this steps σ = (Throw e, σ') →
           σ' = σ ∧
           (steps = [] → e = PlainError "Lineage must not be empty") ∧
           (steps ≠ [] → e = TypeError)).
Proof.
  destruct (last steps) as [lastStep|] eqn:Hlast.
  2:{ apply last_None in Hlast as ->. split.
      - split; [by left|]. intros _. by eexists _, _.
      - intros e σ' [= <- <-]. by repeat split. }
  assert (steps ≠ []) as Hsteps by (by intros ->).
  unfold shareLineage. rewrite Hlast. cbv zeta.
  set (payload := VObject [ ("id", VString (id lastStep.2));
                            ("emoji", VString (emoji lastStep.2));
                            ("steps", VArray (Step_value <$> steps)) ]).
  assert (serialised (Some payload) = JSON_stringify payload) as Htext by done.
  destruct (URL_parse (API_URL (config this) +:+ "/analytics/share"))
    as [url|] eqn:Hurl.
  - destruct (JSON_stringify payload) as [body|] eqn:Hbody.
    + destruct (post_returns this "/analytics/share" None (Some payload) σ
                  url body Hurl Htext) as (r & σ1 & ->).
      split.
      * split; [by intros (e & σ' & ?)|].
        intros [?|[?|(lastStep' & [= <-] & Hnone)]]; [done|done|].
        unfold payload in Hbody. congruence.
      * by intros e σ'.
    + rewrite (post_throws this "/analytics/share" None (Some payload) σ
                 url Hurl Htext).
      split.
      * split; [|intros _; by eexists _, _].
        intros _. right; right. by exists lastStep.
      * intros e σ' [= <- <-]. by repeat split.
  - assert (post this "/analytics/share" None (Some payload) σ
            = (Throw TypeError, σ)) as ->
      by (unfold post, buildUrl, URL_new; by rewrite Hurl).
    split.
    + split; [by right; left|]. intros _. by eexists _, _.
    + intros e σ' [= <- <-]. by repeat split.
Qed.

(** ** Refining again *)

Lemma optional_spread_assoc {A : Type} (a b c : optional A) :
  optional_spread (optional_spread a b) c
  = optional_spread a (optional_spread b c).
Proof. by destruct c, b. Qed.

(** X17. Refining a client by one configuration and the result by another gives
    the configuration that refining once by the two merged gives; the three
    instances are distinct and the first two keep their configuration. *)
Theorem refined_twice (σ : store) (this : nat) (a b : InfinibrowserConfig)
    (client : Infinibrowser) :
  σ !! this = Some client →
  ∃ first σ1 second σ2 once σ',
    refined this a σ = Some (first, σ1) ∧
    refined first b σ1 = Some (second, σ2) ∧
    refined this (config_spread a b) σ = Some (once, σ') ∧
    σ2 !! second = σ' !! once ∧
    σ2 !! second
      = Some (new_Infinibrowser
                (config_spread (config_spread (config client) a) b)) ∧
    σ2 !! this = Some client ∧
    σ2 !! first
      = Some (new_Infinibrowser (config_spread (config client) a)) ∧
    this ≠ first ∧ this ≠ second ∧ first ≠ second.
Proof.
  intros Hthis.
  set (first := fresh (dom σ)).
  set (c1 := new_Infinibrowser (config_spread (config client) a)).
  set (σ1 := <[first := c1]> σ).
  set (second := fresh (dom σ1)).
  set (c2 := new_Infinibrowser (config_spread (config c1) b)).
  assert (this ≠ first) as Hne1.
  { intros Heq. apply (is_fresh (dom σ)). fold first. rewrite <- Heq.
    apply elem_of_dom. by eexists. }
  assert (σ1 !! first = Some c1) as Hfirst by apply lookup_insert_eq.
  assert (first ≠ second) as Hne2.
  { intros Heq. apply (is_fresh (dom σ1)). fold second. rewrite <- Heq.
    apply elem_of_dom. by eexists. }
  assert (this ≠ second) as Hne3.
  { intros Heq. apply (is_fresh (dom σ1)). fold second. rewrite <- Heq.
    apply elem_of_dom. unfold σ1. rewrite lookup_insert_ne by done.
    by eexists. }
  exists first, σ1, second, (<[second := c2]> σ1), first,
    (<[first := new_Infinibrowser
                  (config_spread (config client) (config_spread a b))]> σ).
  split; [unfold refined; by rewrite Hthis|].
  split; [unfold refined; by rewrite Hfirst|].
  split; [unfold refined; by rewrite Hthis|].
  rewrite !lookup_insert_eq. split.
  { unfold c2, c1, config_spread. cbn. by rewrite optional_spread_assoc. }
  split; [done|].
  split; [unfold σ1; by rewrite !lookup_insert_ne|].
  split; [by rewrite lookup_insert_ne|]. done.
Qed.

(** ** Calls in a row *)

(** What one call leaves behind: the pending timers of before and one more
    controller. *)
Lemma fetchWithTimeout_footprint (this : Infinibrowser) (url : URL)
    (init : RequestInit) (σ : runtime) :
  ∃ r σ', fetchWithTimeout this url init σ = (Normal r, σ')
          ∧ timers σ' = timers σ
          ∧ controllers σ' = S (controllers σ).
Proof.
  rewrite fetchWithTimeout_run, fetchWithTimeout_try_run.
  destruct (timers_cleared this σ (EvTimerFired 0)) as (_ & _ & Hunsent).
  destruct (built_request _ _ _ _) as [sent|e]; [|by eexists _, _].
  destruct (timers_cleared this σ (EvFetch sent)) as (Hquiet & Hfired & _).
  assert (controllers (cleared (new_timer σ)
            (fire (new_timer σ) (logged (EvFetch sent) (at_try this σ))))
          = S (controllers σ)) as Hcount.
  { unfold cleared, fire, logged, at_try. cbn. by rewrite lookup_insert_eq. }
  cbn zeta.
  destruct (network sent) as [response|e|]; [|by eexists _, _..].
  destruct (text response) as [body|e|]; [|by eexists _, _..].
  destruct (JSON_parse body); by eexists _, _.
Qed.

(** X18. Calls awaited one after the other leak nothing: after [getItem] for
    each of a list of identifiers the pending timers are those of before.
    With a base URL that parses there is one result and one controller for
    each identifier; with one that does not, the first call throws and
    nothing has run. *)
Theorem getItem_each_no_leak (this : Infinibrowser) (ids : list string)
    (σ : runtime) :
  ∃ c σ',
    getItem_each this ids σ = (c, σ') ∧
    timers σ' = timers σ ∧
    match URL_parse (API_URL (config this) +:+ "/item") with
    | Some _ =>
        ∃ rs, c = Normal rs
              ∧ length rs = length ids
              ∧ controllers σ' = controllers σ + length ids
    | None =>
        σ' = σ ∧ (ids = [] → c = Normal []) ∧ (ids ≠ [] → c = Throw TypeError)
    end.
Proof.
  destruct (URL_parse (API_URL (config this) +:+ "/item")) as [url|] eqn:Hurl.
  - revert σ. induction ids as [|id ids IH]; intros σ.
    + eexists _, _. split; [done|]. split; [done|]. exists [].
      split; [done|]. split; [done|]. cbn. lia.
    + cbn [getItem_each]. unfold mbind, M_bind.
      assert (∃ r σ1, getItem this id σ = (Normal r, σ1)
                      ∧ timers σ1 = timers σ
                      ∧ controllers σ1 = S (controllers σ))
        as (r & σ1 & -> & Htimers & Hcount).
      { unfold getItem, get, buildUrl, URL_new. rewrite Hurl.
        apply fetchWithTimeout_footprint. }
      destruct (IH σ1) as (c & σ' & -> & Htimers' & rs & -> & Hlen & Hcount').
      eexists _, _. split; [done|]. split; [congruence|].
      exists (r :: rs). split; [done|]. cbn. split; lia.
  - destruct ids as [|id ids].
    + eexists _, _. split; [done|]. split; [done|]. by repeat split.
    + cbn [getItem_each]. unfold mbind, M_bind.
      assert (getItem this id σ = (Throw TypeError, σ)) as ->.
      { unfold getItem, get, buildUrl, URL_new. by rewrite Hurl. }
      eexists _, _. split; [done|]. split; [done|]. by repeat split.
Qed.

(** ** The revision before *)

Lemma Previous_fetchWithTimeout_run (this : Infinibrowser) (url : URL)
    (init : RequestInit) (σ : runtime) :
  Previous.fetchWithTimeout this url init σ
  = match built_request this url init (controllers σ) with
    | Throw e => (Throw e, cleared (new_timer σ) (at_try this σ))
    | Normal sent =>
        let σ1 := logged (EvFetch sent) (at_try this σ) in
        match network sent with
        | Rejected e => (Throw e, cleared (new_timer σ) σ1)
        | TimedOut =>
            (Throw abort_error, cleared (new_timer σ) (fire (new_timer σ) σ1))
        | Fulfilled response =>
            if Response_ok response then
              match text response with
              | Rejected e => (Throw e, cleared (new_timer σ) σ1)
              | TimedOut =>
                  (Throw abort_error,
                   cleared (new_timer σ) (fire (new_timer σ) σ1))
              | Fulfilled body =>
                  match JSON_parse body with
                  | None => (Throw SyntaxError, cleared (new_timer σ) σ1)
                  | Some data => (Normal data, cleared (new_timer σ) σ1)
                  end
              end
            else (Throw (Previous.http_error response),
                  cleared (new_timer σ) σ1)
        end
    end.
Proof.
  unfold Previous.fetchWithTimeout, Previous.fetchWithTimeout_try,
    AbortController_new, setTimeout, try_finally, clearTimeout, built_request,
    lift, fetch, await, parse, at_try, new_timer, cleared, logged, abort_error.
  unfold mbind, M_bind, mret, M_ret. cbv beta iota zeta.
  destruct (mergeRequests _) as [requestInit|e]; cbn; [|done].
  destruct (Request_new url requestInit) as [sent|e]; cbn; [|done].
  destruct (network sent) as [response|e|]; cbn; [|done..].
  destruct (Response_ok response); cbn; [|done].
  destruct (text response) as [body|e|]; cbn; [|done..].
  by destruct (JSON_parse body).
Qed.

(** X19. In the revision before, where failures are thrown, the [finally] still
    clears the timer on every path: whether the call returns or throws, the
    pending timers are those of before and the clearing is its last event. A
    status outside 200..299 makes it throw the error
    "HTTP <status> - <statusText>" without reading the body. *)
Theorem Previous_clears_timer (this : Infinibrowser) (url : URL)
    (init : RequestInit) (σ : runtime) :
  ∃ c σ',
    Previous.fetchWithTimeout this url init σ = (c, σ') ∧
    timers σ' = timers σ ∧
    last (trace σ') = Some (EvClearTimeout (new_timer σ)) ∧
    (∀ sent response,
       built_request this url init (controllers σ) = Normal sent →
       network sent = Fulfilled response →
       ¬ (200 ≤ status response ≤ 299)%Z →
       c = Throw (PlainError ("HTTP " +:+ pretty (status response) +:+ " - "
                              +:+ statusText response))).
Proof.
  rewrite Previous_fetchWithTimeout_run.
  destruct (timers_cleared this σ (EvTimerFired 0)) as (_ & _ & Hunsent).
  assert (∀ σ1, last (trace (cleared (new_timer σ) σ1))
                = Some (EvClearTimeout (new_timer σ))) as Hlast.
  { intros σ1. cbn. apply last_snoc. }
  destruct (built_request _ _ _ _) as [sent|e].
  2:{ eexists _, _. split; [done|]. split; [done|]. split; [apply Hlast|].
      by intros sent response [=]. }
  destruct (timers_cleared this σ (EvFetch sent)) as (Hquiet & Hfired & _).
  cbn zeta.
  destruct (network sent) as [response|e|] eqn:Hnetwork.
  2,3: eexists _, _; split; [done|]; split; [done|]; split; [apply Hlast|];
       intros sent' response' [= <-] Hnetwork'; by rewrite Hnetwork in Hnetwork'.
  unfold Response_ok. case_bool_decide as Hstatus.
  - destruct (text response) as [body|e|]; [destruct (JSON_parse body)| |];
      (eexists _, _; split; [done|]; split; [done|]; split; [apply Hlast|];
       intros sent' response' [= <-] Hnetwork' Hstatus';
       rewrite Hnetwork in Hnetwork'; injection Hnetwork' as <-; done).
  - eexists _, _. split; [done|]. split; [done|]. split; [apply Hlast|].
    intros sent' response' [= <-] Hnetwork' _.
    rewrite Hnetwork in Hnetwork'. by injection Hnetwork' as <-.
Qed.

(** X20. The two revisions agree where they can: on the same call in the same
    runtime they leave the same runtime unless the older one stops at a
    status outside 200..299; the older one returns data exactly when the
    newer one returns [ok: true] with that data; and what the older one
    throws, the HTTP error apart, the newer one returns as the transport
    error [handleError] makes of it. *)
Theorem revisions_agree (this : Infinibrowser) (url : URL)
    (init : RequestInit) (σ : runtime) :
  ∃ c σp r σl,
    Previous.fetchWithTimeout this url init σ = (c, σp) ∧
    fetchWithTimeout this url init σ = (Normal r, σl) ∧
    (∀ data, c = Normal data ↔ ∃ response, r = Success data response) ∧
    (∀ e, c = Throw e →
          (r = Failed (handleError e) ∧ σl = σp)
          ∨ (∃ sent response,
               built_request this url init (controllers σ) = Normal sent ∧
               network sent = Fulfilled response ∧
               ¬ (200 ≤ status response ≤ 299)%Z ∧
               e = Previous.http_error response)) ∧
    (∀ data, c = Normal data → σl = σp).
Proof.
  rewrite Previous_fetchWithTimeout_run, fetchWithTimeout_run,
    fetchWithTimeout_try_run.
  destruct (built_request _ _ _ _) as [sent|e].
  2:{ eexists _, _, _, _. split; [done|]. split; [done|]. split; [|split].
      - intros data. split; [done|]. by intros [response ?].
      - intros e' [= <-]. by left.
      - done. }
  cbn zeta.
  destruct (network sent) as [response|e|] eqn:Hnetwork.
  2,3: eexists _, _, _, _; split; [done|]; split; [done|];
       (split; [|split]);
       [intros data; split; [done|]; by intros [response ?]
       |intros e' [= <-]; by left
       |done].
  unfold Response_ok. case_bool_decide as Hstatus.
  - destruct (text response) as [body|e|]; [destruct (JSON_parse body) as [data|]| |].
    + eexists _, _, _, _. split; [done|]. split; [done|]. split; [|split].
      * intros data'. split.
        -- intros [= <-]. by eexists.
        -- by intros [response' [= <- _]].
      * done.
      * done.
    + eexists _, _, _, _. split; [done|]. split; [done|]. split; [|split].
      * intros data. split; [done|]. by intros [response' ?].
      * intros e' [= <-]. by left.
      * done.
    + eexists _, _, _, _. split; [done|]. split; [done|]. split; [|split].
      * intros data. split; [done|]. by intros [response' ?].
      * intros e' [= <-]. by left.
      * done.
    + eexists _, _, _, _. split; [done|]. split; [done|]. split; [|split].
      * intros data. split; [done|]. by intros [response' ?].
      * intros e' [= <-]. by left.
      * done.
  - assert (∀ e, (Throw (Previous.http_error response) : completion value)
                 = Throw e →
        (∃ sent0 response0,
           (Normal sent : completion Request) = Normal sent0
           ∧ network sent0 = Fulfilled response0
           ∧ ¬ (200 ≤ status response0 ≤ 299)%Z
           ∧ e = Previous.http_error response0)) as Hhttp.
    { intros e [= <-]. by exists sent, response. }
    destruct (text response) as [body|e|]; [destruct (JSON_parse body) as [data|]| |];
      (eexists _, _, _, _; split; [done|]; split; [done|]; split; [|split];
       [intros data'; split; [done|]; by intros [response' ?]
       |intros e' He'; right; by apply Hhttp
       |done]).
Qed.

End Further.

(** * The properties on the sample host *)

Section Witnesses.
Import Sample.
Existing Instance sample_host.

Lemma getItem_is_fetchWithTimeout (id : string) (σ : runtime) :
  getItem ib id σ = fetchWithTimeout ib (item_url id) get_init σ.
Proof. reflexivity. Qed.

(** A 404 from [/item] with the body of an unknown element. *)
Lemma fetchWithTimeout_not_ok_witness :
  (getItem ib "Nope" idle).1 = Normal (NotOk unknown_element not_found).
Proof.
  rewrite getItem_is_fetchWithTimeout.
  edestruct (fetchWithTimeout_not_ok ib (item_url "Nope") get_init idle)
    as (r & Hr & Heq & _).
  - vm_compute. reflexivity.
  - vm_compute. reflexivity.
  - cbn. lia.
  - reflexivity.
  - vm_compute. reflexivity.
  - rewrite Hr, Heq. reflexivity.
Defined.

(** A 502 from [/recipes] with a page of markup as body. *)
Lemma fetchWithTimeout_not_ok_bad_body_witness :
  (getRecipes ib "Nope" None idle).1 = Normal syntax_error.
Proof.
  change (getRecipes ib "Nope" None idle)
    with (fetchWithTimeout ib (recipes_url "Nope") get_init idle).
  edestruct (fetchWithTimeout_not_ok_bad_body ib (recipes_url "Nope")
               get_init idle) as (r & Hr & Heq & _).
  - vm_compute. reflexivity.
  - vm_compute. reflexivity.
  - cbn. lia.
  - reflexivity.
  - vm_compute. reflexivity.
  - rewrite Hr, Heq. reflexivity.
Defined.

(** [/uses] does not answer before the timer fires, [/recipes] answers
    with markup, and the connection to [/recipe/custom] fails. *)
Lemma fetchWithTimeout_catches_witness :
  (getUses ib "Water" None idle).1 = Normal timed_out
  ∧ (getRecipes ib "Water" None idle).1 = Normal syntax_error
  ∧ (getCustomLineage ib "Water" idle).1
    = Normal (Failed (mkFetchResponseError UNKNOWN_ERROR TypeError))
  ∧ ∃ code,
      (getUses ib "Water" None idle).1
        = Normal (Failed (mkFetchResponseError code (DOMException "AbortError")))
      ∧ code = TIMEOUT.
Proof.
  change (getUses ib "Water" None idle)
    with (fetchWithTimeout ib (uses_url "Water") get_init idle).
  change (getRecipes ib "Water" None idle)
    with (fetchWithTimeout ib (recipes_url "Water") get_init idle).
  change (getCustomLineage ib "Water" idle)
    with (fetchWithTimeout ib (custom_url "Water") get_init idle).
  destruct (fetchWithTimeout_catches ib (uses_url "Water") get_init idle)
    as (_ & Hthrown & _ & Htimeout & _).
  destruct (fetchWithTimeout_catches ib (recipes_url "Water") get_init idle)
    as (_ & _ & Hsyntax & _).
  destruct (fetchWithTimeout_catches ib (custom_url "Water") get_init idle)
    as (_ & _ & _ & _ & Hother).
  split; [|split; [|split]].
  - eapply Htimeout.
    + vm_compute. reflexivity.
    + left. vm_compute. reflexivity.
  - eapply Hsyntax.
    + vm_compute. reflexivity.
    + vm_compute. reflexivity.
    + reflexivity.
    + vm_compute. reflexivity.
  - eapply Hother.
    + vm_compute. reflexivity.
    + left. vm_compute. reflexivity.
    + done.
    + done.
  - edestruct (Hthrown (DOMException "AbortError")) as (code & Hcode & _ & Habort & _).
    + vm_compute. reflexivity.
    + exists code. split; [exact Hcode|]. by apply Habort.
Defined.

(** The last of three specifications wins on [Accept] and [method]; what
    only the first gives stays, [X-Trace] with its value as [new Headers]
    reads it, without the spaces. *)
Lemma mergeRequests_last_wins_witness :
  ∃ merged mergedHeaders,
    mergeRequests three_requests = Normal merged ∧
    headers merged = Present (InitHeaders mergedHeaders) ∧
    Headers_get "Accept" mergedHeaders = Some "application/json" ∧
    header_of "X-Trace" first_request = Some "1" ∧
    Headers_get "X-Trace" mergedHeaders = Some "1" ∧
    fields merged !! "method" = Some (IString "POST") ∧
    fields merged !! "mode" = Some (IString "cors").
Proof.
  destruct (mergeRequests_last_wins three_requests)
    as (merged & mergedHeaders & Hmerged & Hheaders & Hfield & _ & _
        & _ & Hheader & _).
  { intros request Hin. unfold three_requests in Hin.
    apply elem_of_cons in Hin as [[= ->]|Hin]; [by eexists|].
    apply elem_of_cons in Hin as [?|Hin]; [done|].
    apply list_elem_of_singleton in Hin as [= ->]. by eexists. }
  exists merged, mergedHeaders. split; [exact Hmerged|].
  split; [exact Hheaders|].
  split; [|split; [|split; [|split]]].
  - apply (Hheader 2 last_request "Accept" "application/json");
      [reflexivity|reflexivity|].
    intros [|[|[|j]]] later Hj Hlater; try lia; done.
  - reflexivity.
  - apply (Hheader 0 first_request "X-Trace" "1"); [reflexivity|reflexivity|].
    intros [|[|[|j]]] later Hj Hlater; try lia; try done.
    by injection Hlater as <-.
  - apply (Hfield 2 last_request); [reflexivity|reflexivity|].
    intros [|[|[|j]]] later Hj Hlater; try lia; done.
  - apply (Hfield 0 first_request); [reflexivity|reflexivity|].
    intros [|[|[|j]]] later Hj Hlater; try lia; try done.
    by injection Hlater as <-.
Defined.

(** C5 fails as stated: a specification that gives [Set-Cookie] twice has
    the header with both values, and merging it alone leaves the header
    with the second value only; [Via], given twice as well, keeps both. *)
Lemma mergeRequests_keeps_last_cookie :
  header_of "Set-Cookie" cookies_request = Some "a=1, b=2"
  ∧ header_of "Via" cookies_request = Some "1.1 x, 1.1 y"
  ∧ mergeRequests [Some cookies_request]
    = Normal (mkRequestInit
                (Present (InitHeaders {[ "set-cookie" := ["b=2"];
                                         "via" := ["1.1 x, 1.1 y"] ]}))
                ∅)
  ∧ Headers_get "Set-Cookie" {[ "set-cookie" := ["b=2"];
                               "via" := ["1.1 x, 1.1 y"] ]}
    = Some "b=2"
  ∧ Headers_get "Set-Cookie" {[ "set-cookie" := ["b=2"];
                               "via" := ["1.1 x, 1.1 y"] ]}
    ≠ header_of "Set-Cookie" cookies_request.
Proof. by vm_compute. Qed.


(** With a base URL that is no URL, [getItem] throws. *)
Lemma endpoint_throws_on_malformed_URL_witness :
  URL_parse ("not a url" +:+ "/item") = None
  ∧ getItem malformed "Water" idle = (Throw TypeError, idle).
Proof.
  assert (URL_parse (API_URL (config malformed) +:+ "/item") = None)
    as Hurl by reflexivity.
  split; [exact Hurl|].
  exact (proj1 (endpoint_throws_on_malformed_URL malformed "/item"
                  (Some [("id", PString "Water")]) idle Hurl)).
Defined.

(** Refining the exported instance in a store that holds only it. *)
Lemma refined_shallow_merge_witness :
  ({[0 := ib]} : store) !! 0 = Some ib
  ∧ ∃ new σ' refined_client,
      refined 0 tagged {[0 := ib]} = Some (new, σ') ∧
      σ' !! new = Some refined_client ∧
      σ' !! 0 = Some ib ∧
      request (config refined_client) = Present tagged_request.
Proof.
  assert (({[0 := ib]} : store) !! 0 = Some ib) as Hib by reflexivity.
  split; [exact Hib|].
  destruct (refined_shallow_merge {[0 := ib]} 0 tagged ib Hib)
    as (new & σ' & refined_client & Hrefined & _ & Hnew & _ & Hthis & _ & _
        & _ & Hgiven).
  exists new, σ', refined_client.
  split; [exact Hrefined|]. split; [exact Hnew|]. split; [exact Hthis|].
  by apply Hgiven.
Defined.

(** C4 fails as stated: refining a client whose [request] option has the
    header [X-A] with a configuration whose [request] option has the header
    [X-B] gives a client whose [request] option is the given one, without
    [X-A], where a key-by-key merge of the headers keeps it. *)
Lemma refined_replaces_request_headers :
  refined 0 tagged {[0 := new_Infinibrowser traced]}
    = Some (1, {[0 := new_Infinibrowser traced;
                 1 := new_Infinibrowser
                        (mkConfig DEFAULT_API_URL 250 (Present tagged_request))]})
  ∧ header_of "X-A" traced_request = Some "1"
  ∧ header_of "X-A" tagged_request = None
  ∧ merged_header "X-A" traced_request tagged_request = Some "1"
  ∧ header_of "X-A" tagged_request
    ≠ merged_header "X-A" traced_request tagged_request.
Proof. by vm_compute. Qed.

(** C3 fails as stated: of the properties [b] and [1], created in this
    order, [Object.entries] gives [1] first, and so does the query; the
    entries in insertion order are the other way round. *)
Lemma buildUrl_index_keys_first :
  buildUrl DEFAULT_API_URL "/item" (Some indexed_params)
  = Normal (mkURL (api "/item") [("1", "y"); ("b", "x")])
  ∧ omap query_entry indexed_params = [("b", "x"); ("1", "y")]
  ∧ buildUrl DEFAULT_API_URL "/item" (Some indexed_params)
    ≠ Normal (mkURL (api "/item") (omap query_entry indexed_params)).
Proof. by vm_compute. Qed.

(** With no array index among the keys the query is in insertion order:
    [null] and [undefined] are left out, the number 20 and the boolean are
    printed. *)
Lemma buildUrl_appends_params_witness :
  Forall (λ entry : string * param, array_index entry.1 = None) recipes_params
  ∧ buildUrl DEFAULT_API_URL "/recipes" (Some recipes_params)
    = Normal (mkURL (api "/recipes")
                [("id", "Water"); ("offset", "20"); ("exact", "true")]).
Proof.
  assert (Forall (λ entry : string * param, array_index entry.1 = None)
                 recipes_params) as Hplain.
  { repeat (constructor; [reflexivity|]). constructor. }
  split; [exact Hplain|].
  rewrite (proj2 (buildUrl_appends_params DEFAULT_API_URL "/recipes"
                    recipes_params) Hplain).
  reflexivity.
Defined.

(** ** The client at work *)

Example buildUrl_skips_nullish :
  buildUrl DEFAULT_API_URL "/recipes"
    (Some [ ("id", PString "Water"); ("after", PNull); ("offset", PNumber (Finite false 20 0));
            ("exact", PBoolean true); ("before", PUndefined) ])
  = Normal (mkURL (api "/recipes")
              [("id", "Water"); ("offset", "20"); ("exact", "true")]).
Proof. reflexivity. Qed.

Example getItem_known :
  (getItem ib "Water" idle).1
  = Normal (Success water (mkResponse 200 "OK" (Fulfilled (json_text water)))).
Proof. by vm_compute. Qed.

(** The body of [/recipe] does not arrive before the timer fires; the
    controller is aborted and no timer is left. *)
Example getLineage_times_out_on_body :
  ∃ σ', getLineage ib "Water" idle = (Normal timed_out, σ')
        ∧ timers σ' = ∅ ∧ aborted σ' = {[0]}
        ∧ last (trace σ') = Some (EvClearTimeout 0).
Proof. eexists. by vm_compute. Qed.

Example getCustomLineage_network_failure :
  (getCustomLineage ib "Water" idle).1
  = Normal (Failed (mkFetchResponseError UNKNOWN_ERROR TypeError)).
Proof. by vm_compute. Qed.

(** A body in the client's [request] option makes [new Request] reject the
    GET; the [catch] returns it. *)
Example getItem_with_body :
  (getItem (new_Infinibrowser
              (mkConfig DEFAULT_API_URL 1000
                 (Present (mkRequestInit Absent {["body" := IString "x"]}))))
           "Water" idle).1
  = Normal (Failed (mkFetchResponseError UNKNOWN_ERROR TypeError)).
Proof. by vm_compute. Qed.

Example shareLineage_nothing :
  shareLineage ib [] idle
  = (Throw (PlainError "Lineage must not be empty"), idle).
Proof. reflexivity. Qed.

Example shareLineage_steam :
  (shareLineage ib steam idle).1
  = Normal (Success shared
              (mkResponse 200 "OK" (Fulfilled (json_text shared)))).
Proof. by vm_compute. Qed.

(** A [bigint] in a step has no JSON text: [shareLineage] throws before
    anything runs, where a step of plain values is sent. *)
Example shareLineage_bigint :
  shareLineage ib [(VBigInt 1, VString "Fire", mkElement "Steam" "~")] idle
  = (Throw TypeError, idle).
Proof. reflexivity. Qed.

End Witnesses.

(** * The further properties on the sample host *)

Section FurtherWitnesses.
Import Sample.
Existing Instance sample_host.

Lemma buildUrl_nullish_params_witness :
  Forall (λ entry : string * param, not_nullish entry.2 = false)
         [("after", PNull); ("before", PUndefined)]
  ∧ buildUrl DEFAULT_API_URL "/item"
      (Some [("after", PNull); ("before", PUndefined)])
    = Normal (mkURL (api "/item") []).
Proof.
  assert (Forall (λ entry : string * param, not_nullish entry.2 = false)
                 [("after", PNull); ("before", PUndefined)]) as Hnull
    by (by repeat constructor).
  split; [exact Hnull|].
  by rewrite (buildUrl_nullish_params DEFAULT_API_URL "/item" _ Hnull).
Defined.

(** Of [Set-Cookie], given twice, the merge keeps the second value, and of
    [Via] the two joined; a specification with one value for each name
    keeps its headers, [X-Trace] without the spaces. *)
Lemma mergeRequests_single_witness :
  headers_view cookies_request
  = Some {[ "set-cookie" := ["a=1"; "b=2"]; "via" := ["1.1 x"; "1.1 y"] ]}
  ∧ mergeRequests [Some cookies_request]
    = Normal (mkRequestInit
                (Present (InitHeaders {[ "set-cookie" := ["b=2"];
                                         "via" := ["1.1 x, 1.1 y"] ]}))
                ∅)
  ∧ mergeRequests [Some first_request]
    = Normal (mkRequestInit
                (Present (InitHeaders {[ "accept" := ["text/html"];
                                         "x-trace" := ["1"] ]}))
                {["method" := IString "GET"; "mode" := IString "cors"]}).
Proof.
  assert (headers_view cookies_request
          = Some {[ "set-cookie" := ["a=1"; "b=2"];
                    "via" := ["1.1 x"; "1.1 y"] ]}) as Hcookies
    by (vm_compute; reflexivity).
  assert (headers_view first_request
          = Some {[ "accept" := ["text/html"]; "x-trace" := ["1"] ]})
    as Hfirst by (vm_compute; reflexivity).
  split; [exact Hcookies|]. split.
  - rewrite (proj1 (mergeRequests_single cookies_request _ Hcookies)).
    vm_compute. reflexivity.
  - apply (proj2 (mergeRequests_single first_request _ Hfirst)).
    intros name values Hname.
    apply lookup_insert_Some in Hname as [[_ <-]|[_ Hname]]; [by eexists|].
    apply lookup_singleton_Some in Hname as [_ <-]. by eexists.
Defined.

Lemma mergeRequests_headers_object_witness :
  ∃ merged mergedHeaders,
    mergeRequests three_requests = Normal merged ∧
    headers merged = Present (InitHeaders mergedHeaders) ∧
    mergedHeaders !! "accept" = Some ["application/json"] ∧
    (∀ name val, mergedHeaders !! name = Some val → lowercase name = name) ∧
    (∀ name values, mergedHeaders !! name = Some values →
                    ∃ val, values = [val] ∧ normalize val = val).
Proof.
  destruct (mergeRequests three_requests) as [merged|] eqn:Hmerged;
    [|by vm_compute in Hmerged].
  destruct (mergeRequests_headers_object three_requests merged Hmerged)
    as (mergedHeaders & Hheaders & Hlower & Hsingle).
  exists merged, mergedHeaders. split; [done|]. split; [done|].
  split; [|done].
  vm_compute in Hmerged. injection Hmerged as <-.
  by injection Hheaders as <-.
Defined.

Lemma mergeRequests_throws_iff_witness :
  headers_view bad_request = None
  ∧ mergeRequests [Some first_request; Some bad_request] = Throw TypeError.
Proof.
  assert (headers_view bad_request = None) as Hbad by reflexivity.
  split; [exact Hbad|].
  destruct (mergeRequests_throws_iff [Some first_request; Some bad_request])
    as [[_ Hthrows] Htype].
  destruct Hthrows as [e He].
  { exists bad_request. split; [|exact Hbad]. by right; left. }
  rewrite He. f_equal. by apply Htype.
Defined.

Lemma mergeRequests_two_stage_witness :
  ∃ merged,
    mergeRequests [Some first_request; None] = Normal merged ∧
    is_Some (headers_view merged) ∧
    mergeRequests [Some merged; Some last_request]
    = mergeRequests three_requests.
Proof.
  destruct (mergeRequests [Some first_request; None]) as [merged|]
    eqn:Hmerged; [|by vm_compute in Hmerged].
  assert (is_Some (headers_view merged)) as Hview.
  { vm_compute in Hmerged. injection Hmerged as <-. by eexists. }
  exists merged. split; [done|]. split; [exact Hview|].
  exact (mergeRequests_two_stage [Some first_request; None]
           [Some last_request] merged Hmerged Hview).
Defined.

Lemma fetchWithTimeout_result_inv_witness :
  ∃ sent body,
    built_request ib (item_url "Water") get_init 0 = Normal sent ∧
    network sent = Fulfilled found ∧
    text found = Fulfilled body ∧
    JSON_parse body = Some water.
Proof.
  destruct (fetchWithTimeout ib (item_url "Water") get_init idle) as [c σ']
    eqn:Hrun.
  assert (c = Normal (Success water found)) as ->.
  { apply (f_equal fst) in Hrun. vm_compute in Hrun. by subst c. }
  destruct (fetchWithTimeout_result_inv ib (item_url "Water") get_init idle σ'
              (Success water found) Hrun)
    as (sent & body & Hsent & _ & Hnetwork & _ & Htext & Hparse).
  by exists sent, body.
Defined.

Lemma fetchWithTimeout_code_tells_error_witness :
  ∃ failure,
    (getUses ib "Water" None idle).1 = Normal (Failed failure) ∧
    (transport_error_code failure = TIMEOUT
     ↔ error failure = DOMException "AbortError") ∧
    transport_error_code failure = TIMEOUT.
Proof.
  change (getUses ib "Water" None idle)
    with (fetchWithTimeout ib (uses_url "Water") get_init idle).
  destruct (fetchWithTimeout ib (uses_url "Water") get_init idle) as [c σ']
    eqn:Hrun.
  assert (c = Normal timed_out) as ->.
  { apply (f_equal fst) in Hrun. vm_compute in Hrun. by subst c. }
  destruct (fetchWithTimeout_code_tells_error ib (uses_url "Water") get_init
              idle σ' _ Hrun) as (_ & Htimeout & _).
  eexists. split; [done|]. split; [exact Htimeout|done].
Defined.

Lemma request_forced_options_witness :
  ∃ built mergedHeaders,
    built_request overriding (item_url "Water") get_init 0 = Normal built ∧
    fields (request_init built) !! "signal" = Some (ISignal 0) ∧
    headers (request_init built) = Present (InitHeaders mergedHeaders) ∧
    Headers_get "Accept-Encoding" mergedHeaders
      = Some "gzip, deflate, identity".
Proof.
  destruct (built_request overriding (item_url "Water") get_init 0)
    as [built|] eqn:Hbuilt; [|by vm_compute in Hbuilt].
  destruct (request_forced_options overriding (item_url "Water") get_init 0
              built Hbuilt) as (_ & Hsignal & mergedHeaders & Hheaders & Hget).
  by exists built, mergedHeaders.
Defined.

(** The call's [Accept] comes before the client's; the client's
    [Authorization] reaches the request, and of its [Set-Cookie], given
    twice, the second value. *)
Lemma request_precedence_witness :
  ∃ built mergedHeaders,
    built_request overriding (item_url "Water") get_init 0 = Normal built ∧
    fields (request_init built) !! "method" = Some (IString "GET") ∧
    fields (request_init built) !! "mode" = Some (IString "cors") ∧
    headers (request_init built) = Present (InitHeaders mergedHeaders) ∧
    Headers_get "Accept" mergedHeaders = Some "application/json" ∧
    Headers_get "Authorization" mergedHeaders = Some "Bearer t" ∧
    header_of "Set-Cookie" overriding_request = Some "a=1, b=2" ∧
    Headers_get "Set-Cookie" mergedHeaders = Some "b=2".
Proof.
  destruct (built_request overriding (item_url "Water") get_init 0)
    as [built|] eqn:Hbuilt; [|by vm_compute in Hbuilt].
  destruct (request_precedence overriding (item_url "Water") get_init 0
              built Hbuilt)
    as (Hfields & mergedHeaders & Hheaders & Hget & Hown & Hbase).
  exists built, mergedHeaders. split; [done|].
  split; [by rewrite Hfields|]. split; [by rewrite Hfields|].
  split; [done|]. split; [|split; [|split]].
  - apply (Hown "Accept" "application/json"); [done|reflexivity].
  - apply (Hbase "Authorization" overriding_request "Bearer t");
      [done|reflexivity|reflexivity|reflexivity].
  - reflexivity.
  - rewrite Hget by done. reflexivity.
Defined.

Lemma get_request_witness :
  ∃ built r σ',
    getRecipes ib "Water" None idle = (Normal r, σ') ∧
    EvFetch built ∈ trace σ' ∧
    request_url built = recipes_url "Water" ∧
    fields (request_init built) !! "method" = Some (IString "GET") ∧
    fields (request_init built) !! "body" = None.
Proof.
  destruct (built_request ib (recipes_url "Water") get_options 0)
    as [built|] eqn:Hbuilt; [|by vm_compute in Hbuilt].
  destruct (get_request ib "/recipes"
              (Some [("id", PString "Water"); ("offset", PNumber zero)])
              idle (recipes_url "Water") built)
    as (r & σ' & mergedHeaders & Hrun & Hsent & Hurl & Hmethod & Hbody & _);
    [reflexivity|exact Hbuilt|].
  by exists built, r, σ'.
Defined.

Lemma post_request_witness :
  ∃ built r σ',
    optimizeLineage ib "Water" idle = (Normal r, σ') ∧
    EvFetch built ∈ trace σ' ∧
    request_url built = optimize_url "Water" ∧
    fields (request_init built) !! "method" = Some (IString "POST") ∧
    fields (request_init built) !! "body" = Some (IString "{}").
Proof.
  destruct (built_request ib (optimize_url "Water") (post_options "{}") 0)
    as [built|] eqn:Hbuilt; [|by vm_compute in Hbuilt].
  destruct (post_request ib "/optimize-lineage"
              (Some [("id", PString "Water")]) None
              idle (optimize_url "Water") "{}" built)
    as (r & σ' & mergedHeaders & Hrun & Hsent & Hurl & Hmethod & Hbody & _);
    [reflexivity|reflexivity|exact Hbuilt|].
  by exists built, r, σ'.
Defined.

Lemma refined_twice_witness :
  ({[0 := ib]} : store) !! 0 = Some ib
  ∧ ∃ first σ1 second σ2,
      refined 0 traced {[0 := ib]} = Some (first, σ1) ∧
      refined first tagged σ1 = Some (second, σ2) ∧
      σ2 !! second
        = Some (new_Infinibrowser
                  (mkConfig DEFAULT_API_URL 250 (Present tagged_request))) ∧
      σ2 !! 0 = Some ib.
Proof.
  assert (({[0 := ib]} : store) !! 0 = Some ib) as Hib by reflexivity.
  split; [exact Hib|].
  destruct (refined_twice {[0 := ib]} 0 traced tagged ib Hib)
    as (first & σ1 & second & σ2 & once & σ' & Hfirst & Hsecond & _ & _
        & Hconfig & Hthis & _).
  by exists first, σ1, second, σ2.
Defined.

Lemma Previous_clears_timer_witness :
  (Previous.fetchWithTimeout ib (item_url "Nope") get_init idle).1
  = Throw (PlainError "HTTP 404 - Not Found").
Proof.
  destruct (Previous_clears_timer ib (item_url "Nope") get_init idle)
    as (c & σ' & -> & _ & _ & Hthrows).
  cbn [fst]. eapply (Hthrows _ not_found).
  - vm_compute. reflexivity.
  - vm_compute. reflexivity.
  - cbn. lia.
Defined.

End FurtherWitnesses.
